(** * Training orchestrator of unet-pytorch ([train.py])

    A shallow embedding of the script's control flow: distributed set-up,
    checkpoint resume, the epoch/batch loop with the gradient scaler and the
    learning-rate scheduler, the rank-0 checkpoint phase with its two
    best-model trackers, and the final teardown.

    The libraries the script drives (the network, the optimizer, the
    scheduler, the data loaders, the evaluation routine, the interrupt flag)
    are opaque to the script; they are gathered in the record [Externals] and
    every definition below is parametric in it.  Everything the script does
    to the outside world (polls, optimizer and scheduler steps, log entries,
    file writes, process-group calls) is recorded as an [event], so that the
    properties of a run are properties of its event list.

    Scores ([miou], [val_loss]) are Python floats compared with [<] and [>];
    they are modelled as rationals, which covers every finite float (and the
    integer literal [100] the loss tracker starts from) with the same order.
*)

From Stdlib Require Import String Ascii List Bool Arith Lia Sorted.
From Stdlib Require Import QArith.
Import ListNotations.

Local Close Scope Q_scope.
Local Open Scope nat_scope.

(** ** Scores *)

(** [x < y] on scores, as a boolean: Python's [x < y], and [y > x]. *)
Definition Qltb (x y : Q) : bool := negb (Qle_bool y x).

(** ** Data model *)

(** The dictionary written by [torch.save] at lines 124-132 and read back by
    [torch.load] at lines 53/55.  [SD] is the model's state dict, the other
    three are the state dicts of the optimizer, scheduler and scaler. *)
Record Checkpoint (SD O S C : Type) : Type := MkCheckpoint {
  model_state_dict : SD;
  optimizer_state_dict : O;
  scheduler_state_dict : S;
  scaler_state_dict : C;
  epoch : nat;
  miou : Q;
  val_loss : Q
}.
Arguments MkCheckpoint {SD O S C}.
Arguments model_state_dict {SD O S C}.
Arguments optimizer_state_dict {SD O S C}.
Arguments scheduler_state_dict {SD O S C}.
Arguments scaler_state_dict {SD O S C}.
Arguments epoch {SD O S C}.
Arguments miou {SD O S C}.
Arguments val_loss {SD O S C}.

(** [cfg]: the keys of the configuration that [train.py] reads. *)
Record Config : Type := MkConfig {
  ddp : bool;
  amp_enabled : bool;
  resume_training : option string;
  fine_tuning_batchnorm : bool;
  cfg_epoch : nat                    (* cfg[model_name]['epoch'] *)
}.

(** What the script calls but does not define.  A model's state dict holds
    its learnable parameters and its buffers (the running statistics of the
    batch-normalisation layers): the optimizer writes the former, a forward
    pass in training mode the latter. *)
Record Externals : Type := MkExternals {
  Params : Type;
  Buffers : Type;
  OptState : Type;
  SchedState : Type;
  ScalerState : Type;
  Batch : Type;
  (* utils.builder.Builder *)
  build_params : Params;
  build_buffers : Buffers;
  build_optimizer : OptState;
  build_scheduler : SchedState;
  (* torch.cuda.amp.GradScaler(...) *)
  new_scaler : ScalerState;
  (* len(trainloader), and the batch the loader yields at an index of an
     epoch, after sampler.set_epoch(epoch) *)
  len_trainloader : nat;
  trainloader : nat -> nat -> Batch;
  (* model(images) in training mode: the buffers it leaves behind *)
  forward_buffers : bool -> Params -> Buffers -> Batch -> Buffers;
  (* loss.item() *)
  loss_item : Params -> Buffers -> Batch -> Q;
  (* optimizer.step() on the gradients of the batch *)
  optimizer_step : Batch -> Params -> Buffers -> OptState -> Params * OptState;
  (* optimizer.param_groups[0]['lr'] *)
  lr_of : OptState -> Q;
  (* scheduler.step(): it rewrites the optimizer's learning rate *)
  scheduler_step : SchedState -> OptState -> SchedState * OptState;
  (* the scaler's inf/NaN check of the unscaled gradients *)
  found_inf : ScalerState -> Params -> Buffers -> Batch -> bool;
  (* scaler.update(), told whether the check fired *)
  scaler_update : bool -> ScalerState -> ScalerState;
  (* eval.evaluate(...) of an epoch: (val_loss, miou) *)
  evaluate : nat -> Params -> Buffers -> Q * Q;
  (* utils.train_interupter.train_interupter(), by the number of earlier
     calls *)
  train_interupter : nat -> bool;
  (* torch.load *)
  torch_load : string -> option (Checkpoint (Params * Buffers) OptState SchedState ScalerState);
  (* torch.distributed *)
  is_nccl_available : bool;
  is_initialized : bool;
  get_rank : nat;
  get_world_size : nat
}.

Inductive scalar_tag : Type :=
| LossTraining | LearningRate | LossValidation | MetricsMIoU.

Inductive image_tag : Type :=
| Groundtruth | Prediction.

Inductive error : Type :=
| NcclNotAvailable          (* assert at line 19 *)
| DdpNotInitialized         (* assert at line 21 *)
| LoadFailed                (* torch.load raised *)
| NoProcessGroup.           (* destroy_process_group without a group *)

Inductive outcome : Type :=
| Completed                 (* the range of epochs is exhausted *)
| Stopped (at_epoch : nat). (* break at line 80 *)

(** An entry of [best_val_loss_writes]: the write is attributed to an epoch,
    and the validation loss logged for that epoch is strictly below 100. *)
Definition below_100 (w : option (nat * Q)) : Prop :=
  exists e l, w = Some (e, l) /\ (l < 100)%Q.

(** ** Reading a log *)

(** The entries of a log that a reader picks, in order. *)
Fixpoint pick {A B : Type} (f : A -> option B) (l : list A) : list B :=
  match l with
  | [] => []
  | a :: r =>
      match f a with
      | Some b => b :: pick f r
      | None => pick f r
      end
  end.

Definition scalar_tag_eqb (a b : scalar_tag) : bool :=
  match a, b with
  | LossTraining, LossTraining => true
  | LearningRate, LearningRate => true
  | LossValidation, LossValidation => true
  | MetricsMIoU, MetricsMIoU => true
  | _, _ => false
  end.

Section Orchestrator.

Context (X : Externals).

Definition StateDict : Type := (Params X * Buffers X)%type.

Definition Ckpt : Type :=
  Checkpoint StateDict (OptState X) (SchedState X) (ScalerState X).

(** The module object: its state dict and two mode flags. *)
Record Model : Type := MkModel {
  params : Params X;
  buffers : Buffers X;
  training : bool;
  bn_frozen : bool
}.

Definition state_dict (m : Model) : StateDict := (params m, buffers m).

Definition load_state_dict (sd : StateDict) (m : Model) : Model :=
  {| params := fst sd; buffers := snd sd;
     training := training m; bn_frozen := bn_frozen m |}.

(** [model.train()] *)
Definition train_mode (m : Model) : Model :=
  {| params := params m; buffers := buffers m;
     training := true; bn_frozen := bn_frozen m |}.

(** Modelled from the spec: [freeze_bn] is a method of the model classes,
    which are not among the sources at hand; the spec says of it that the
    batch-normalization statistics are frozen by the caller.  The state dict
    is left as it is and the flag is raised. *)
Definition freeze_bn (m : Model) : Model :=
  {| params := params m; buffers := buffers m;
     training := training m; bn_frozen := true |}.

Inductive event : Type :=
| EvInitProcessGroup
| EvBarrier
| EvTorchLoad (path : string)
| EvPoll (epoch : nat) (answer : bool)
| EvSetEpoch (epoch : nat)
| EvBatch (epoch batch_idx : nat)
| EvScalerStep (iters : nat) (stepped : bool)
| EvSchedulerStep (iters : nat)
| EvAddScalar (tag : scalar_tag) (value : Q) (step : nat)
| EvAddImages (tag : image_tag) (step : nat)
| EvEvaluate (epoch : nat)
| EvSaveCheckpoint (ck : Ckpt)
| EvSaveBestMiou (sd : StateDict)
| EvSaveBestValLoss (sd : StateDict)
| EvWriterClose
| EvDestroyProcessGroup.

(** The variables of the script that the loop reads and writes. *)
Record State : Type := MkState {
  model : Model;
  optimizer : OptState X;
  scheduler : SchedState X;
  scaler : ScalerState X;
  prev_miou : Q;
  prev_val_loss : Q;
  polls : nat
}.

(** *** Lines 17-27: distributed set-up *)

Definition init_distributed (cfg : Config)
  : list event * (error + (nat * bool)) :=
  if ddp cfg then
    if is_nccl_available X then
      if is_initialized X then ([EvInitProcessGroup], inr (get_rank X, true))
      else ([EvInitProcessGroup], inl DdpNotInitialized)
    else ([], inl NcclNotAvailable)
  else ([], inr (0, false)).

(** *** Lines 33-46: the freshly built components *)

Definition built (cfg : Config) : State :=
  {| model := {| params := build_params X; buffers := build_buffers X;
                 training := true; bn_frozen := false |};
     optimizer := build_optimizer X;
     scheduler := build_scheduler X;
     scaler := new_scaler X;
     prev_miou := 0%Q;
     prev_val_loss := 100%Q;
     polls := 0 |}.

(** *** Lines 48-70: resume, or a fresh start *)

Definition restore (cfg : Config) (ck : Ckpt) (st : State) : State * nat :=
  let m := load_state_dict (model_state_dict ck) (model st) in
  let st' :=
    if fine_tuning_batchnorm cfg then
      {| model := freeze_bn m;
         optimizer := optimizer st;
         scheduler := scheduler st;
         scaler := scaler st;
         prev_miou := miou ck;
         prev_val_loss := val_loss ck;
         polls := polls st |}
    else
      {| model := m;
         optimizer := optimizer_state_dict ck;
         scheduler := scheduler_state_dict ck;
         scaler := scaler_state_dict ck;
         prev_miou := miou ck;
         prev_val_loss := val_loss ck;
         polls := polls st |} in
  (st', epoch ck + 1).

Definition resume (cfg : Config) (st : State)
  : list event * (error + (State * nat)) :=
  match resume_training cfg with
  | Some path =>
      let ev := (if ddp cfg then [EvBarrier] else []) ++ [EvTorchLoad path] in
      match torch_load X path with
      | Some ck => (ev, inr (restore cfg ck st))
      | None => (ev, inl LoadFailed)
      end
  | None => ([], inr (st, 0))
  end.

(** *** Lines 84-100: one training batch *)

(** [scaler.step(optimizer)] runs [optimizer.step()] unless the scaler is
    enabled and found inf/NaN gradients; [scaler.update()] does nothing when
    the scaler is disabled. *)
Definition overflow (cfg : Config) (st : State) (b : Batch X) : bool :=
  amp_enabled cfg
  && found_inf X (scaler st) (params (model st)) (buffers (model st)) b.

Definition train_batch (cfg : Config) (epoch batch_idx : nat) (st : State)
  : State * list event :=
  let iters := len_trainloader X * epoch + batch_idx in
  let b := trainloader X epoch batch_idx in
  let m := model st in
  let loss := loss_item X (params m) (buffers m) b in
  let inf := overflow cfg st b in
  let bufs := forward_buffers X (bn_frozen m) (params m) (buffers m) b in
  let '(p1, o1) :=
    if inf then (params m, optimizer st)
    else optimizer_step X b (params m) (buffers m) (optimizer st) in
  let sc1 := if amp_enabled cfg then scaler_update X inf (scaler st)
             else scaler st in
  let lr := lr_of X o1 in
  let '(s2, o2) := scheduler_step X (scheduler st) o1 in
  ({| model := {| params := p1; buffers := bufs;
                  training := training m; bn_frozen := bn_frozen m |};
      optimizer := o2;
      scheduler := s2;
      scaler := sc1;
      prev_miou := prev_miou st;
      prev_val_loss := prev_val_loss st;
      polls := polls st |},
   [EvBatch epoch batch_idx;
    EvScalerStep iters (negb inf);
    EvAddScalar LossTraining loss iters;
    EvAddScalar LearningRate lr iters;
    EvSchedulerStep iters]).

Fixpoint train_batches (cfg : Config) (epoch : nat) (idxs : list nat)
  (st : State) : State * list event :=
  match idxs with
  | [] => (st, [])
  | i :: rest =>
      let '(st1, ev1) := train_batch cfg epoch i st in
      let '(st2, ev2) := train_batches cfg epoch rest st1 in
      (st2, ev1 ++ ev2)
  end.

(** *** Lines 121-142: the checkpoint phase *)

Definition save_phase (local_rank epoch : nat) (loss metric : Q) (st : State)
  : State * list event :=
  if local_rank =? 0 then
    let ck : Ckpt :=
      {| model_state_dict := state_dict (model st);
         optimizer_state_dict := optimizer st;
         scheduler_state_dict := scheduler st;
         scaler_state_dict := scaler st;
         epoch := epoch;
         miou := metric;
         val_loss := loss |} in
    let '(pm, evm) :=
      if Qltb (prev_miou st) metric
      then (metric, [EvSaveBestMiou (state_dict (model st))])
      else (prev_miou st, []) in
    let '(pl, evl) :=
      if Qltb loss (prev_val_loss st)
      then (loss, [EvSaveBestValLoss (state_dict (model st))])
      else (prev_val_loss st, []) in
    ({| model := model st;
        optimizer := optimizer st;
        scheduler := scheduler st;
        scaler := scaler st;
        prev_miou := pm;
        prev_val_loss := pl;
        polls := polls st |},
     EvSaveCheckpoint ck :: evm ++ evl)
  else (st, []).

(** *** Lines 81-142: the body of the epoch loop after the interrupt check *)

Definition with_model (m : Model) (st : State) : State :=
  {| model := m;
     optimizer := optimizer st;
     scheduler := scheduler st;
     scaler := scaler st;
     prev_miou := prev_miou st;
     prev_val_loss := prev_val_loss st;
     polls := polls st |}.

Definition eval_events (e : nat) (loss metric : Q) : list event :=
  [EvEvaluate e;
   EvAddScalar LossValidation loss e;
   EvAddScalar MetricsMIoU metric e]
  ++ (if e =? 0 then [EvAddImages Groundtruth e] else [])
  ++ [EvAddImages Prediction e].

Definition run_epoch (cfg : Config) (local_rank e : nat) (st : State)
  : State * list event :=
  let st0 := with_model (train_mode (model st)) st in
  let '(st1, ev1) :=
    train_batches cfg e (seq 0 (len_trainloader X)) st0 in
  let '(loss, metric) :=
    evaluate X e (params (model st1)) (buffers (model st1)) in
  let '(st2, ev2) := save_phase local_rank e loss metric st1 in
  (st2, EvSetEpoch e :: ev1 ++ eval_events e loss metric ++ ev2).

(** *** Lines 77-80: the epoch loop with its interrupt check *)

Definition polled (st : State) : State :=
  {| model := model st;
     optimizer := optimizer st;
     scheduler := scheduler st;
     scaler := scaler st;
     prev_miou := prev_miou st;
     prev_val_loss := prev_val_loss st;
     polls := S (polls st) |}.

Fixpoint epoch_loop (cfg : Config) (local_rank : nat) (epochs : list nat)
  (st : State) : State * list event * outcome :=
  match epochs with
  | [] => (st, [], Completed)
  | e :: rest =>
      if train_interupter X (polls st)
      then (polled st, [EvPoll e true], Stopped e)
      else
        let '(st1, ev1) := run_epoch cfg local_rank e (polled st) in
        let '(st2, ev2, out) := epoch_loop cfg local_rank rest st1 in
        (st2, EvPoll e false :: ev1 ++ ev2, out)
  end.

(** [range(start_epoch, cfg[model_name]['epoch'])] *)
Definition epoch_range (cfg : Config) (start_epoch : nat) : list nat :=
  seq start_epoch (cfg_epoch cfg - start_epoch).

(** *** Lines 143-144 *)

(** [torch.distributed.destroy_process_group()] with no argument destroys
    the default group and raises when there is none. *)
Definition destroy_process_group (initialized : bool) : option error :=
  if initialized then None else Some NoProcessGroup.

(** *** The script *)

Record Run : Type := MkRun {
  run_events : list event;
  run_outcome : option outcome;     (* how the epoch loop ended, if reached *)
  run_state : option State;         (* the variables after the loop *)
  run_error : option error          (* the exception that ended the script *)
}.

Definition main (cfg : Config) : Run :=
  match init_distributed cfg with
  | (ev0, inl err) => MkRun ev0 None None (Some err)
  | (ev0, inr (local_rank, initialized)) =>
      match resume cfg (built cfg) with
      | (ev1, inl err) => MkRun (ev0 ++ ev1) None None (Some err)
      | (ev1, inr (st0, start_epoch)) =>
          let '(st, ev2, out) :=
            epoch_loop cfg local_rank (epoch_range cfg start_epoch) st0 in
          MkRun (ev0 ++ ev1 ++ ev2 ++ [EvWriterClose; EvDestroyProcessGroup])
                (Some out) (Some st)
                (destroy_process_group initialized)
      end
  end.

(** ** Readers of the event list of a run *)

(** The polls of the interrupt flag, with their answers. *)
Definition poll_log : list event -> list (nat * bool) :=
  pick (fun ev => match ev with EvPoll e a => Some (e, a) | _ => None end).

(** The epochs whose body was entered (the poll answered false). *)
Definition entered : list event -> list nat :=
  pick (fun ev => match ev with EvPoll e false => Some e | _ => None end).

(** The training batches taken from the loader: (epoch, batch index). *)
Definition batches : list event -> list (nat * nat) :=
  pick (fun ev => match ev with EvBatch e i => Some (e, i) | _ => None end).

(** The iteration numbers at which [scheduler.step()] ran. *)
Definition sched_iters : list event -> list nat :=
  pick (fun ev => match ev with EvSchedulerStep it => Some it | _ => None end).

(** The iteration numbers at which [optimizer.step()] was run by the
    scaler, and those at which the scaler skipped it. *)
Definition optimizer_iters : list event -> list nat :=
  pick (fun ev => match ev with EvScalerStep it true => Some it | _ => None end).

Definition skipped_iters : list event -> list nat :=
  pick (fun ev => match ev with EvScalerStep it false => Some it | _ => None end).

(** The step indices of the entries of one scalar series. *)
Definition scalar_steps (tag : scalar_tag) : list event -> list nat :=
  pick (fun ev => match ev with
                  | EvAddScalar t _ step =>
                      if scalar_tag_eqb t tag then Some step else None
                  | _ => None
                  end).

(** The checkpoint records written, oldest first. *)
Definition saved_checkpoints : list event -> list Ckpt :=
  pick (fun ev => match ev with EvSaveCheckpoint ck => Some ck | _ => None end).

(** The [epoch] fields of the checkpoint records written, oldest first. *)
Definition checkpoint_epochs (evs : list event) : list nat :=
  map epoch (saved_checkpoints evs).

Definition best_miou_saves : list event -> list StateDict :=
  pick (fun ev => match ev with EvSaveBestMiou sd => Some sd | _ => None end).

Definition best_val_loss_saves : list event -> list StateDict :=
  pick (fun ev => match ev with EvSaveBestValLoss sd => Some sd | _ => None end).

Definition is_write (ev : event) : bool :=
  match ev with
  | EvSaveCheckpoint _ | EvSaveBestMiou _ | EvSaveBestValLoss _ => true
  | _ => false
  end.

(** Every [torch.save] of the run. *)
Definition writes (evs : list event) : list event := filter is_write evs.

Definition teardowns : list event -> list unit :=
  pick (fun ev => match ev with EvDestroyProcessGroup => Some tt | _ => None end).

Definition process_group_inits : list event -> list unit :=
  pick (fun ev => match ev with EvInitProcessGroup => Some tt | _ => None end).

(** The writes of one best-model artifact, each with the epoch and the value
    of the scalar series [tag] logged last before it ([None] when nothing
    was logged yet). *)
Fixpoint attributed (tag : scalar_tag) (is_save : event -> bool)
  (last : option (nat * Q)) (evs : list event) : list (option (nat * Q)) :=
  match evs with
  | [] => []
  | ev :: r =>
      match ev with
      | EvAddScalar t v step =>
          if scalar_tag_eqb t tag
          then attributed tag is_save (Some (step, v)) r
          else attributed tag is_save last r
      | _ =>
          if is_save ev
          then last :: attributed tag is_save last r
          else attributed tag is_save last r
      end
  end.

Definition is_best_miou_save (ev : event) : bool :=
  match ev with EvSaveBestMiou _ => true | _ => false end.

Definition is_best_val_loss_save (ev : event) : bool :=
  match ev with EvSaveBestValLoss _ => true | _ => false end.

Definition best_miou_writes (evs : list event) : list (option (nat * Q)) :=
  attributed MetricsMIoU is_best_miou_save None evs.

Definition best_val_loss_writes (evs : list event) : list (option (nat * Q)) :=
  attributed LossValidation is_best_val_loss_save None evs.

(** The state after the training batches of epoch [e], and the scores the
    evaluation of that epoch returns: (val_loss, miou). *)
Definition trained (cfg : Config) (e : nat) (st : State) : State :=
  fst (train_batches cfg e (seq 0 (len_trainloader X))
         (with_model (train_mode (model st)) st)).

Definition epoch_scores (cfg : Config) (e : nat) (st : State) : Q * Q :=
  evaluate X e (params (model (trained cfg e st)))
    (buffers (model (trained cfg e st))).

(** The events of a training batch. *)
Definition batch_event (ev : event) : bool :=
  match ev with
  | EvBatch _ _ | EvScalerStep _ _ | EvSchedulerStep _ => true
  | EvAddScalar LossTraining _ _ | EvAddScalar LearningRate _ _ => true
  | _ => false
  end.

(** The events of the body of an epoch (everything but the poll). *)
Definition epoch_event (ev : event) : bool :=
  match ev with
  | EvSetEpoch _ | EvBatch _ _ | EvScalerStep _ _ | EvSchedulerStep _
  | EvAddScalar _ _ _ | EvAddImages _ _ | EvEvaluate _
  | EvSaveCheckpoint _ | EvSaveBestMiou _ | EvSaveBestValLoss _ => true
  | _ => false
  end.

(** The events that [attributed] passes over without a trace. *)
Definition silent (tag : scalar_tag) (is_save : event -> bool) (ev : event)
  : bool :=
  match ev with
  | EvAddScalar t _ _ => negb (scalar_tag_eqb t tag)
  | _ => negb (is_save ev)
  end.

(** The state of the loop after the first [k] epochs of a list (or at the
    interrupt, if it came earlier). *)
Definition state_after (cfg : Config) (local_rank : nat) (epochs : list nat)
  (st : State) (k : nat) : State :=
  fst (fst (epoch_loop cfg local_rank (firstn k epochs) st)).

End Orchestrator.

Arguments params {X} m.
Arguments buffers {X} m.
Arguments training {X} m.
Arguments bn_frozen {X} m.
Arguments state_dict {X} m.
Arguments model {X} s.
Arguments optimizer {X} s.
Arguments scheduler {X} s.
Arguments scaler {X} s.
Arguments prev_miou {X} s.
Arguments prev_val_loss {X} s.
Arguments polls {X} s.
Arguments run_events {X} r.
Arguments run_outcome {X} r.
Arguments run_state {X} r.
Arguments run_error {X} r.
Arguments EvPoll {X} epoch answer.
Arguments EvSetEpoch {X} epoch.
Arguments EvBatch {X} epoch batch_idx.
Arguments EvScalerStep {X} iters stepped.
Arguments EvSchedulerStep {X} iters.
Arguments EvAddScalar {X} tag value step.
Arguments EvAddImages {X} tag step.
Arguments EvEvaluate {X} epoch.
Arguments EvSaveCheckpoint {X} ck.
Arguments EvSaveBestMiou {X} sd.
Arguments EvSaveBestValLoss {X} sd.
Arguments EvWriterClose {X}.
Arguments EvDestroyProcessGroup {X}.
Arguments EvInitProcessGroup {X}.
Arguments EvBarrier {X}.
Arguments EvTorchLoad {X} path.
Arguments poll_log {X} _.
Arguments entered {X} _.
Arguments batches {X} _.
Arguments sched_iters {X} _.
Arguments optimizer_iters {X} _.
Arguments skipped_iters {X} _.
Arguments scalar_steps {X} tag _.
Arguments saved_checkpoints {X} _.
Arguments checkpoint_epochs {X} evs.
Arguments best_miou_saves {X} _.
Arguments best_val_loss_saves {X} _.
Arguments is_write {X} ev.
Arguments writes {X} evs.
Arguments teardowns {X} _.
Arguments process_group_inits {X} _.
Arguments attributed {X} tag is_save last evs.
Arguments is_best_miou_save {X} ev.
Arguments is_best_val_loss_save {X} ev.
Arguments best_miou_writes {X} evs.
Arguments best_val_loss_writes {X} evs.
Arguments batch_event {X} ev.
Arguments silent {X} tag is_save ev.
Arguments epoch_event {X} ev.

(** ** A small instance on which the script runs

    Every component is a counter: the parameters count the optimizer steps,
    the buffers the forward passes, the scheduler its own steps, the scaler
    the overflows it saw.  The loader yields two batches per epoch, numbered
    as their iteration.  The scores of an epoch, the interrupt flag, the
    overflow check, the checkpoint file and the rank are chosen by the
    caller. *)

Definition CounterCkpt : Type := Checkpoint (nat * nat) nat nat nat.

Definition counters (scores : nat -> Q * Q) (stop : nat -> bool)
  (inf : nat -> bool) (file : option CounterCkpt) (rank : nat) : Externals :=
  {| Params := nat; Buffers := nat; OptState := nat; SchedState := nat;
     ScalerState := nat; Batch := nat;
     build_params := 0; build_buffers := 0; build_optimizer := 0;
     build_scheduler := 0; new_scaler := 0;
     len_trainloader := 2;
     trainloader := fun e i => 2 * e + i;
     forward_buffers := fun _ _ b _ => S b;
     loss_item := fun _ _ _ => 1%Q;
     optimizer_step := fun _ p _ o => (S p, S o);
     lr_of := fun _ => (1 # 10)%Q;
     scheduler_step := fun s o => (S s, o);
     found_inf := fun _ _ _ b => inf b;
     scaler_update := fun i sc => if i then S sc else sc;
     evaluate := fun e _ _ => scores e;
     train_interupter := stop;
     torch_load := fun _ => file;
     is_nccl_available := true;
     is_initialized := true;
     get_rank := rank;
     get_world_size := 2 |}.

(** The score sequences of the spec's example, as (val_loss, miou) per
    epoch. *)
Definition example_scores (e : nat) : Q * Q :=
  nth e [(2.0, 0.10); (1.0, 0.45); (1.5, 0.30); (1.0, 0.45); (0.8, 0.50)]%Q
      (0, 0)%Q.

Definition never (_ : nat) : bool := false.

Definition fresh_cfg (epochs : nat) : Config :=
  {| ddp := false; amp_enabled := false; resume_training := None;
     fine_tuning_batchnorm := false; cfg_epoch := epochs |}.

Definition amp_cfg (epochs : nat) : Config :=
  {| ddp := false; amp_enabled := true; resume_training := None;
     fine_tuning_batchnorm := false; cfg_epoch := epochs |}.

Definition ddp_cfg (epochs : nat) : Config :=
  {| ddp := true; amp_enabled := false; resume_training := None;
     fine_tuning_batchnorm := false; cfg_epoch := epochs |}.

Definition resume_cfg (fine_tune : bool) (epochs : nat) : Config :=
  {| ddp := false; amp_enabled := false;
     resume_training := Some "weights/UNet_checkpoint.pth"%string;
     fine_tuning_batchnorm := fine_tune; cfg_epoch := epochs |}.

Definition example_run : Run (counters example_scores never never None 0) :=
  main (counters example_scores never never None 0) (fresh_cfg 5).

(** The instance in which the gradients of the first batch of the run
    overflow. *)
Definition overflow_X : Externals :=
  counters example_scores never (fun b => b =? 0) None 0.

(** The record the first epoch of [example_run] writes, and the instance
    in which [torch.load] finds it. *)
Definition saved_ck : CounterCkpt :=
  {| model_state_dict := (2, 2);
     optimizer_state_dict := 2;
     scheduler_state_dict := 2;
     scaler_state_dict := 0;
     epoch := 0;
     miou := 0.10%Q;
     val_loss := 2.0%Q |}.

Definition resumed_X : Externals :=
  counters example_scores never never (Some saved_ck) 0.

(** The instance in which the interrupt flag is raised after two polls. *)
Definition stopped_X : Externals :=
  counters example_scores (fun n => 2 <=? n) never None 0.

(** The instance in which the validation loss is 150 at every epoch. *)
Definition high_loss_X : Externals :=
  counters (fun _ => (150, 0.5)%Q) never never None 0.

(** ** Further readers of the event list *)

(** The step indices of the entries of one image series. *)
Definition image_steps {X : Externals} (tag : image_tag)
  : list (event X) -> list nat :=
  pick (fun ev => match ev with
                  | EvAddImages Groundtruth step =>
                      match tag with Groundtruth => Some step | _ => None end
                  | EvAddImages Prediction step =>
                      match tag with Prediction => Some step | _ => None end
                  | _ => None
                  end).

(** The values of the entries of one scalar series. *)
Definition scalar_values {X : Externals} (tag : scalar_tag)
  : list (event X) -> list Q :=
  pick (fun ev => match ev with
                  | EvAddScalar t v _ =>
                      if scalar_tag_eqb t tag then Some v else None
                  | _ => None
                  end).

(** The epochs for which [eval.evaluate] was called. *)
Definition evaluations {X : Externals} : list (event X) -> list nat :=
  pick (fun ev => match ev with EvEvaluate e => Some e | _ => None end).

(** The calls of [scaler.step(optimizer)]: the iteration number, and
    whether [optimizer.step()] was run. *)
Definition scaler_steps {X : Externals} : list (event X) -> list (nat * bool) :=
  pick (fun ev => match ev with
                  | EvScalerStep it b => Some (it, b)
                  | _ => None
                  end).

Definition scaler_iters {X : Externals} : list (event X) -> list nat :=
  pick (fun ev => match ev with EvScalerStep it _ => Some it | _ => None end).

Definition writer_closes {X : Externals} : list (event X) -> list unit :=
  pick (fun ev => match ev with EvWriterClose => Some tt | _ => None end).

Definition loads {X : Externals} : list (event X) -> list string :=
  pick (fun ev => match ev with EvTorchLoad p => Some p | _ => None end).

(** * The demo script ([demo.py])

    The script computes a file name for every image of the dataset (lines
    50-53), then runs the model over the batches of the loader and saves
    each predicted mask under the name at the running index [step] (lines
    56-71). *)

Module Demo.

Definition slash : ascii := Ascii.ascii_of_nat 47.
Definition backslash : ascii := Ascii.ascii_of_nat 92.

(** [s.replace(old, new)] for one-character [old] and [new]. *)
Fixpoint replace (old new : ascii) (s : string) : string :=
  match s with
  | EmptyString => EmptyString
  | String c r =>
      String (if Ascii.eqb c old then new else c) (replace old new r)
  end.

(** [s.split(sep)] for a one-character separator: the pieces between the
    separators, empty pieces included. *)
Fixpoint split (sep : ascii) (s : string) : list string :=
  match s with
  | EmptyString => [EmptyString]
  | String c r =>
      if Ascii.eqb c sep then EmptyString :: split sep r
      else match split sep r with
           | p :: ps => String c p :: ps
           | [] => [String c EmptyString]
           end
  end.

(** [l[-1]]: [None] stands for the IndexError on an empty list. *)
Fixpoint last_item {A : Type} (l : list A) : option A :=
  match l with
  | [] => None
  | [a] => Some a
  | _ :: r => last_item r
  end.

(** Line 52: [image_path.replace('\\', '/').split('/')[-1]]. *)
Definition image_name (image_path : string) : option string :=
  last_item (split slash (replace backslash slash image_path)).

(** Lines 50-53. *)
Fixpoint image_names (images : list string) : option (list string) :=
  match images with
  | [] => Some []
  | image_path :: rest =>
      match image_name image_path with
      | None => None
      | Some n =>
          match image_names rest with
          | None => None
          | Some ns => Some (n :: ns)
          end
      end
  end.

(** Whether a character occurs in a string. *)
Fixpoint occurs (c : ascii) (s : string) : bool :=
  match s with
  | EmptyString => false
  | String d r => Ascii.eqb d c || occurs c r
  end.

Section Saving.

Context {Images Mask : Type}.
(** Lines 63-66: the masks predicted for a batch, one per image. *)
Context (predict : Images -> list Mask).
Context (result_folder : string).




End Saving.

End Demo.

(** * The network of [model/proposed.py], at the level of tensor shapes

    The classes of the file only wire library layers together; what the
    wiring decides is which shape reaches which layer.  The layers of
    [torch.nn] are modelled by their shape rules, on activations of shape
    (N, C, H, W); a forward pass either yields the shape of its result or
    fails the way the library would. *)

Module Net.

Record Shape : Type := MkShape {
  batch : nat;
  channels : nat;
  height : nat;
  width : nat
}.

Inductive failure : Type :=
| ChannelMismatch       (* a layer got another number of channels than it
                           was built for *)
| TooSmall              (* the kernel does not fit, or nothing is left *)
| NotBroadcastable      (* the operands of an in-place addition differ *)
| CatMismatch           (* torch.cat on tensors of different sizes *)
| OneValuePerChannel    (* batch norm in training mode on one value *)
| NoAttribute (name : string).  (* the module has no such attribute *)

Definition result : Type := (failure + Shape)%type.

Definition bind (r : result) (f : Shape -> result) : result :=
  match r with
  | inl e => inl e
  | inr x => f x
  end.

(** ** Library layers *)

(** The output size of a convolution or pooling window along one axis. *)
Definition window_out (x k s p d : nat) : failure + nat :=
  if d * (k - 1) + 1 <=? x + 2 * p
  then inr ((x + 2 * p - d * (k - 1) - 1) / s + 1)
  else inl TooSmall.

(** [nn.Conv2d(in_channels, out_channels, kernel_size, stride, padding,
    dilation)] *)
Definition Conv2d (in_channels out_channels k s p d : nat) (x : Shape)
  : result :=
  if channels x =? in_channels then
    match window_out (height x) k s p d, window_out (width x) k s p d with
    | inr h, inr w => inr (MkShape (batch x) out_channels h w)
    | _, _ => inl TooSmall
    end
  else inl ChannelMismatch.

(** [nn.BatchNorm2d(num_features)]; in training mode it refuses an input
    with a single value per channel. *)
Definition BatchNorm2d (num_features : nat) (training : bool) (x : Shape)
  : result :=
  if channels x =? num_features then
    if training && (batch x * height x * width x =? 1)
    then inl OneValuePerChannel
    else inr x
  else inl ChannelMismatch.

(** [F.relu], [nn.ReLU] *)
Definition relu (x : Shape) : result := inr x.

(** [F.max_pool2d(x, 2)]: window 2, stride 2, no padding. *)
Definition max_pool2d_2 (x : Shape) : result :=
  match window_out (height x) 2 2 0 1, window_out (width x) 2 2 0 1 with
  | inr h, inr w => inr (MkShape (batch x) (channels x) h w)
  | _, _ => inl TooSmall
  end.

(** [nn.AdaptiveAvgPool2d(1)] *)
Definition adaptive_avg_pool_1 (x : Shape) : result :=
  if (1 <=? height x) && (1 <=? width x)
  then inr (MkShape (batch x) (channels x) 1 1)
  else inl TooSmall.

(** [F.interpolate(x, size=(h, w), ...)] *)
Definition interpolate (h w : nat) (x : Shape) : result :=
  if (1 <=? height x) && (1 <=? width x) && (1 <=? h) && (1 <=? w)
  then inr (MkShape (batch x) (channels x) h w)
  else inl TooSmall.

(** [torch.cat(xs, 1)]: the channels add up, the other sizes agree. *)
Fixpoint cat_channels (xs : list Shape) : result :=
  match xs with
  | [] => inl CatMismatch
  | [x] => inr x
  | x :: rest =>
      bind (cat_channels rest) (fun y =>
        if (batch x =? batch y) && (height x =? height y)
           && (width x =? width y)
        then inr (MkShape (batch x) (channels x + channels y)
                          (height x) (width x))
        else inl CatMismatch)
  end.

Definition fits (a b : nat) : bool := (a =? b) || (a =? 1).

(** [out += identity]: [identity] is broadcast to the shape of [out]. *)
Definition add_inplace (out identity : Shape) : result :=
  if fits (batch identity) (batch out)
     && fits (channels identity) (channels out)
     && fits (height identity) (height out)
     && fits (width identity) (width out)
  then inr out
  else inl NotBroadcastable.

(** [nn.Sequential] of a list of layers *)
Fixpoint Sequential (layers : list (Shape -> result)) (x : Shape) : result :=
  match layers with
  | [] => inr x
  | layer :: rest => bind (layer x) (Sequential rest)
  end.

(** ** [ASPP] (lines 11-70) *)

Definition ASPP_forward (in_channels out_channels : nat) (training : bool)
  (x : Shape) : result :=
  let feature_map_h := height x in
  let feature_map_w := width x in
  let branch (k p d : nat) (y : Shape) : result :=
    bind (Conv2d in_channels out_channels k 1 p d y) (fun c =>
    bind (BatchNorm2d out_channels training c) relu) in
  bind (branch 1 0 1 x) (fun out_1x1 =>
  bind (branch 3 6 6 x) (fun out_3x3_1 =>
  bind (branch 3 12 12 x) (fun out_3x3_2 =>
  bind (branch 3 18 18 x) (fun out_3x3_3 =>
  bind (adaptive_avg_pool_1 x) (fun pooled =>
  bind (branch 1 0 1 pooled) (fun out_img =>
  bind (interpolate feature_map_h feature_map_w out_img) (fun out_img =>
  bind (cat_channels [out_1x1; out_3x3_1; out_3x3_2; out_3x3_3; out_img])
    (fun out =>
  bind (Conv2d (out_channels * 5) out_channels 1 1 0 1 out) (fun c =>
  bind (BatchNorm2d out_channels training c) relu))))))))).

(** ** [ResidualBlock] (lines 73-95) *)

Definition ResidualBlock_forward (in_channels out_channels stride : nat)
  (x : Shape) : result :=
  let identity := x in
  bind (Conv2d in_channels out_channels 3 stride 1 1 x) (fun out =>
  bind (relu out) (fun out =>
  bind (Conv2d out_channels out_channels 3 1 1 1 out) (fun out =>
  bind (if stride =? 2
        then Conv2d in_channels out_channels 3 2 1 1 x
        else inr identity) (fun identity =>
  bind (add_inplace out identity) relu)))).

(** ** [Proposed] (lines 98-160) *)

(** [_double_conv] (lines 118-134) *)
Definition double_conv (in_channels out_channels : nat)
  (batch_normalization training : bool) : Shape -> result :=
  if batch_normalization then
    Sequential
      [Conv2d in_channels out_channels 3 1 1 1;
       BatchNorm2d out_channels training;
       relu;
       Conv2d out_channels out_channels 3 1 1 1;
       BatchNorm2d out_channels training;
       relu]
  else
    Sequential
      [Conv2d in_channels out_channels 3 1 1 1;
       relu;
       Conv2d out_channels out_channels 3 1 1 1;
       relu].

(** [_make_layer] (lines 136-142): the blocks of the layer.  The loop
    [for _ in range(1, num_blocks)] appends [num_blocks - 1] blocks. *)
Definition make_layer_blocks (in_channels out_channels num_blocks stride : nat)
  : list (Shape -> result) :=
  ResidualBlock_forward in_channels out_channels stride
  :: repeat (ResidualBlock_forward in_channels out_channels 1)
       (num_blocks - 1).

Definition make_layer (in_channels out_channels num_blocks stride : nat)
  : Shape -> result :=
  Sequential (make_layer_blocks in_channels out_channels num_blocks stride).

(** The attributes [__init__] assigns (lines 102-116), by name. *)
Definition Proposed_init (num_channels num_classes : nat) (training : bool)
  : list (string * (Shape -> result)) :=
  [("encode1", double_conv num_channels 64 false training);
   ("encode2", make_layer 64 128 3 1);
   ("encode3", make_layer 128 256 4 2);
   ("encode4", make_layer 256 512 6 2);
   ("encode5", make_layer 512 1024 3 2);
   ("aspp", ASPP_forward 1024 512 training);
   ("upsample",
    fun x => inr (MkShape (batch x) (channels x)
                          (2 * height x) (2 * width x)));
   ("decode4", double_conv 1024 512 false training);
   ("decode3", double_conv 512 256 false training);
   ("decode2", double_conv 256 128 false training);
   ("decode1", double_conv 128 64 false training);
   ("classifier", Conv2d 64 num_classes 1 1 0 1)]%string.

(** [self.<name>(x)]: the attribute is looked up, then called. *)
Fixpoint call (self : list (string * (Shape -> result))) (name : string)
  (x : Shape) : result :=
  match self with
  | [] => inl (NoAttribute name)
  | (n, layer) :: rest =>
      if String.eqb n name then layer x else call rest name x
  end.

(** [forward] (lines 144-160) *)
Definition Proposed_forward (num_channels num_classes : nat) (training : bool)
  (x : Shape) : result :=
  let self := Proposed_init num_channels num_classes training in
  bind (call self "encode1" x) (fun encode1 =>
  bind (max_pool2d_2 encode1) (fun p1 =>
  bind (call self "encode2" p1) (fun encode2 =>
  bind (max_pool2d_2 encode2) (fun p2 =>
  bind (call self "encode3" p2) (fun encode3 =>
  bind (max_pool2d_2 encode3) (fun p3 =>
  bind (call self "encode4" p3) (fun encode4 =>
  bind (max_pool2d_2 encode4) (fun p4 =>
  bind (call self "encode5" p4) (fun e5 =>
  bind (call self "aspp" e5) (fun encode_end =>
  bind (call self "upconv4" encode_end) (fun u4 =>
  bind (cat_channels [u4; encode4]) (fun c4 =>
  bind (call self "decode4" c4) (fun x4 =>
  bind (call self "upconv3" x4) (fun u3 =>
  bind (cat_channels [u3; encode3]) (fun c3 =>
  bind (call self "decode3" c3) (fun x3 =>
  bind (call self "upconv2" x3) (fun u2 =>
  bind (cat_channels [u2; encode2]) (fun c2 =>
  bind (call self "decode2" c2) (fun x2 =>
  bind (call self "upconv1" x2) (fun u1 =>
  bind (cat_channels [u1; encode1]) (fun c1 =>
  bind (call self "decode1" c1) (fun x1 =>
  call self "classifier" x1)))))))))))))))))))))).

End Net.

(** * Properties *)

(** ** Scores and logs *)

Lemma Qltb_lt (x y : Q) : Qltb x y = true <-> (x < y)%Q.
Proof.
  unfold Qltb. rewrite negb_true_iff. split.
  - intros H. apply Qnot_le_lt. intros Hle.
    apply Qle_bool_iff in Hle. congruence.
  - intros H. destruct (Qle_bool y x) eqn:E; [|reflexivity].
    apply Qle_bool_iff in E. exfalso. exact (Qlt_not_le _ _ H E).
Qed.

Lemma Qltb_ge (x y : Q) : Qltb x y = false <-> (y <= x)%Q.
Proof.
  unfold Qltb. rewrite negb_false_iff. apply Qle_bool_iff.
Qed.

Lemma pick_app {A B : Type} (f : A -> option B) (l1 l2 : list A) :
  pick f (l1 ++ l2) = pick f l1 ++ pick f l2.
Proof.
  induction l1 as [|a l1 IH]; simpl; [reflexivity|].
  destruct (f a); simpl; now rewrite IH.
Qed.

Lemma pick_none {A B : Type} (f : A -> option B) (l : list A) :
  Forall (fun a => f a = None) l -> pick f l = [].
Proof.
  induction 1 as [|a l Ha _ IH]; simpl; [reflexivity|].
  now rewrite Ha.
Qed.

Lemma filter_none {A : Type} (f : A -> bool) (l : list A) :
  Forall (fun a => f a = false) l -> filter f l = [].
Proof.
  induction 1 as [|a l Ha _ IH]; simpl; [reflexivity|].
  now rewrite Ha.
Qed.

Lemma map_add_seq (a n : nat) : forall s,
  map (fun i => a + i) (seq s n) = seq (a + s) n.
Proof.
  induction n as [|n IH]; intros s; simpl; [reflexivity|].
  rewrite IH. now rewrite Nat.add_succ_r.
Qed.

Section Properties.

Context (X : Externals).

(** ** One batch *)

Lemma train_batch_events cfg e i (st : State X) :
  exists lr,
    snd (train_batch X cfg e i st) =
    [EvBatch e i;
     EvScalerStep (len_trainloader X * e + i)
       (negb (overflow X cfg st (trainloader X e i)));
     EvAddScalar LossTraining
       (loss_item X (params (model st)) (buffers (model st))
          (trainloader X e i))
       (len_trainloader X * e + i);
     EvAddScalar LearningRate lr (len_trainloader X * e + i);
     EvSchedulerStep (len_trainloader X * e + i)].
Proof.
  unfold train_batch.
  destruct (overflow X cfg st _);
    [|destruct (optimizer_step X _ _ _ _) as [p1 o1]];
    destruct (scheduler_step X _ _) as [s2 o2]; simpl; eauto.
Qed.

Lemma train_batch_trackers cfg e i (st : State X) :
  prev_miou (fst (train_batch X cfg e i st)) = prev_miou st /\
  prev_val_loss (fst (train_batch X cfg e i st)) = prev_val_loss st /\
  polls (fst (train_batch X cfg e i st)) = polls st.
Proof.
  unfold train_batch.
  destruct (overflow X cfg st _);
    [|destruct (optimizer_step X _ _ _ _) as [p1 o1]];
    destruct (scheduler_step X _ _) as [s2 o2]; simpl; auto.
Qed.

Lemma train_batches_cons cfg e i rest (st : State X) :
  train_batches X cfg e (i :: rest) st =
  (fst (train_batches X cfg e rest (fst (train_batch X cfg e i st))),
   snd (train_batch X cfg e i st)
   ++ snd (train_batches X cfg e rest (fst (train_batch X cfg e i st)))).
Proof.
  simpl. destruct (train_batch X cfg e i st) as [st1 ev1]. simpl.
  destruct (train_batches X cfg e rest st1) as [st2 ev2]. reflexivity.
Qed.

Lemma train_batches_batch_events cfg e idxs : forall st : State X,
  Forall (fun ev => batch_event ev = true) (snd (train_batches X cfg e idxs st)).
Proof.
  induction idxs as [|i rest IH]; intros st.
  - constructor.
  - rewrite train_batches_cons. simpl. apply Forall_app. split; [|apply IH].
    destruct (train_batch_events cfg e i st) as [lr ->].
    repeat constructor.
Qed.

Lemma train_batches_trackers cfg e idxs : forall st : State X,
  prev_miou (fst (train_batches X cfg e idxs st)) = prev_miou st /\
  prev_val_loss (fst (train_batches X cfg e idxs st)) = prev_val_loss st /\
  polls (fst (train_batches X cfg e idxs st)) = polls st.
Proof.
  induction idxs as [|i rest IH]; intros st; [simpl; auto|].
  rewrite train_batches_cons. simpl.
  destruct (IH (fst (train_batch X cfg e i st))) as (-> & -> & ->).
  apply train_batch_trackers.
Qed.

Lemma pick_batch_events {B : Type} (f : event X -> option B) evs :
  (forall ev, batch_event ev = true -> f ev = None) ->
  Forall (fun ev => batch_event ev = true) evs ->
  pick f evs = [].
Proof.
  intros Hf H. apply pick_none. revert H. apply Forall_impl. exact Hf.
Qed.

Lemma train_batches_batches cfg e idxs : forall st : State X,
  batches (snd (train_batches X cfg e idxs st)) = map (pair e) idxs.
Proof.
  induction idxs as [|i rest IH]; intros st; [reflexivity|].
  rewrite train_batches_cons. simpl. unfold batches in *.
  rewrite pick_app, IH.
  destruct (train_batch_events cfg e i st) as [lr ->]. reflexivity.
Qed.

Lemma train_batches_sched_iters cfg e idxs : forall st : State X,
  sched_iters (snd (train_batches X cfg e idxs st)) =
  map (fun i => len_trainloader X * e + i) idxs.
Proof.
  induction idxs as [|i rest IH]; intros st; [reflexivity|].
  rewrite train_batches_cons. simpl. unfold sched_iters in *.
  rewrite pick_app, IH.
  destruct (train_batch_events cfg e i st) as [lr ->]. reflexivity.
Qed.

Lemma train_batches_scalar_steps cfg e idxs tag : forall st : State X,
  scalar_steps tag (snd (train_batches X cfg e idxs st)) =
  match tag with
  | LossTraining | LearningRate =>
      map (fun i => len_trainloader X * e + i) idxs
  | _ => []
  end.
Proof.
  induction idxs as [|i rest IH]; intros st; [now destruct tag|].
  rewrite train_batches_cons. simpl. unfold scalar_steps in *.
  rewrite pick_app, IH.
  destruct (train_batch_events cfg e i st) as [lr ->].
  destruct tag; reflexivity.
Qed.

(** ** The checkpoint phase *)

Lemma save_phase_writer e loss metric (st : State X) :
  save_phase X 0 e loss metric st =
  ({| model := model st;
      optimizer := optimizer st;
      scheduler := scheduler st;
      scaler := scaler st;
      prev_miou := if Qltb (prev_miou st) metric then metric else prev_miou st;
      prev_val_loss :=
        if Qltb loss (prev_val_loss st) then loss else prev_val_loss st;
      polls := polls st |},
   EvSaveCheckpoint
     {| model_state_dict := state_dict (model st);
        optimizer_state_dict := optimizer st;
        scheduler_state_dict := scheduler st;
        scaler_state_dict := scaler st;
        epoch := e; miou := metric; val_loss := loss |}
   :: (if Qltb (prev_miou st) metric
       then [EvSaveBestMiou (state_dict (model st))] else [])
   ++ (if Qltb loss (prev_val_loss st)
       then [EvSaveBestValLoss (state_dict (model st))] else [])).
Proof.
  unfold save_phase. simpl.
  destruct (Qltb (prev_miou st) metric), (Qltb loss (prev_val_loss st));
    reflexivity.
Qed.

Lemma save_phase_other rank e loss metric (st : State X) :
  rank <> 0 -> save_phase X rank e loss metric st = (st, []).
Proof.
  intros H. unfold save_phase.
  destruct (Nat.eqb_spec rank 0); [contradiction|reflexivity].
Qed.

Lemma save_phase_polls rank e loss metric (st : State X) :
  polls (fst (save_phase X rank e loss metric st)) = polls st.
Proof.
  destruct (Nat.eq_dec rank 0) as [->|H].
  - now rewrite save_phase_writer.
  - now rewrite save_phase_other.
Qed.

(** ** One epoch *)

Lemma run_epoch_eq cfg rank e (st : State X) :
  run_epoch X cfg rank e st =
  (fst (save_phase X rank e (fst (epoch_scores X cfg e st))
          (snd (epoch_scores X cfg e st)) (trained X cfg e st)),
   EvSetEpoch e
   :: snd (train_batches X cfg e (seq 0 (len_trainloader X))
             (with_model X (train_mode X (model st)) st))
   ++ eval_events X e (fst (epoch_scores X cfg e st))
        (snd (epoch_scores X cfg e st))
   ++ snd (save_phase X rank e (fst (epoch_scores X cfg e st))
             (snd (epoch_scores X cfg e st)) (trained X cfg e st))).
Proof.
  unfold run_epoch, epoch_scores, trained.
  destruct (train_batches X cfg e _ _) as [st1 ev1]. simpl.
  destruct (evaluate X e _ _) as [loss metric]. simpl.
  destruct (save_phase X rank e loss metric st1) as [st2 ev2]. reflexivity.
Qed.

Lemma trained_trackers cfg e (st : State X) :
  prev_miou (trained X cfg e st) = prev_miou st /\
  prev_val_loss (trained X cfg e st) = prev_val_loss st /\
  polls (trained X cfg e st) = polls st.
Proof.
  unfold trained.
  destruct (train_batches_trackers cfg e (seq 0 (len_trainloader X))
              (with_model X (train_mode X (model st)) st)) as (-> & -> & ->).
  simpl. auto.
Qed.

Lemma run_epoch_polls cfg rank e (st : State X) :
  polls (fst (run_epoch X cfg rank e st)) = polls st.
Proof.
  rewrite run_epoch_eq. simpl. rewrite save_phase_polls.
  apply trained_trackers.
Qed.

Lemma save_phase_no_batch_event rank e loss metric (st : State X) :
  Forall (fun ev => batch_event ev = false)
    (snd (save_phase X rank e loss metric st)).
Proof.
  destruct (Nat.eq_dec rank 0) as [->|H].
  - rewrite save_phase_writer. simpl.
    destruct (Qltb _ _), (Qltb _ _); simpl; repeat constructor.
  - rewrite save_phase_other by assumption. constructor.
Qed.

(** The part of an epoch's events after its batches: evaluation, logging
    and the checkpoint phase. *)
Lemma epoch_tail_pick {B : Type} (f : event X -> option B) rank e loss metric
  (st : State X) :
  (forall ev, batch_event ev = false -> f ev = None) ->
  pick f (eval_events X e loss metric
          ++ snd (save_phase X rank e loss metric st)) = [].
Proof.
  intros Hf. apply pick_none. apply Forall_app. split.
  - unfold eval_events. destruct (e =? 0); simpl;
      repeat constructor; apply Hf; reflexivity.
  - eapply Forall_impl; [|apply save_phase_no_batch_event].
    intros ev. apply Hf.
Qed.

Lemma run_epoch_pick_batches {B : Type} (f : event X -> option B) cfg rank e
  (st : State X) :
  (forall ev, batch_event ev = false -> f ev = None) ->
  pick f (snd (run_epoch X cfg rank e st)) =
  pick f (snd (train_batches X cfg e (seq 0 (len_trainloader X))
                 (with_model X (train_mode X (model st)) st))).
Proof.
  intros Hf. rewrite run_epoch_eq. cbn [snd pick].
  rewrite (Hf (EvSetEpoch e)) by reflexivity.
  rewrite pick_app, epoch_tail_pick by assumption. apply app_nil_r.
Qed.

Lemma run_epoch_pick_tail {B : Type} (f : event X -> option B) cfg rank e
  (st : State X) :
  (forall ev, batch_event ev = true -> f ev = None) ->
  pick f (snd (run_epoch X cfg rank e st)) =
  pick f (EvSetEpoch e
          :: eval_events X e (fst (epoch_scores X cfg e st))
               (snd (epoch_scores X cfg e st))
          ++ snd (save_phase X rank e (fst (epoch_scores X cfg e st))
                    (snd (epoch_scores X cfg e st)) (trained X cfg e st))).
Proof.
  intros Hf. rewrite run_epoch_eq. cbn [snd].
  change (EvSetEpoch e :: ?a ++ ?b) with ([EvSetEpoch e] ++ a ++ b).
  rewrite !pick_app.
  rewrite (pick_batch_events f _ Hf (train_batches_batch_events _ _ _ _)).
  reflexivity.
Qed.

Lemma run_epoch_batches cfg rank e (st : State X) :
  batches (snd (run_epoch X cfg rank e st)) =
  map (pair e) (seq 0 (len_trainloader X)).
Proof.
  unfold batches. rewrite run_epoch_pick_batches.
  - apply train_batches_batches.
  - intros [] H; try reflexivity; discriminate.
Qed.

Lemma run_epoch_sched_iters cfg rank e (st : State X) :
  sched_iters (snd (run_epoch X cfg rank e st)) =
  seq (len_trainloader X * e) (len_trainloader X).
Proof.
  unfold sched_iters. rewrite run_epoch_pick_batches.
  - fold (@sched_iters X). rewrite train_batches_sched_iters.
    rewrite map_add_seq. now rewrite Nat.add_0_r.
  - intros [] H; try reflexivity; discriminate.
Qed.

Lemma run_epoch_epoch_events cfg rank e (st : State X) :
  Forall (fun ev => epoch_event ev = true) (snd (run_epoch X cfg rank e st)).
Proof.
  rewrite run_epoch_eq. cbn [snd]. constructor; [reflexivity|].
  apply Forall_app. split; [|apply Forall_app; split].
  - eapply Forall_impl; [|apply train_batches_batch_events].
    intros [] H; try discriminate; reflexivity.
  - unfold eval_events. destruct (e =? 0); repeat constructor.
  - destruct (Nat.eq_dec rank 0) as [->|H].
    + rewrite save_phase_writer. cbn [snd].
      destruct (Qltb _ _), (Qltb _ _); repeat constructor.
    + rewrite save_phase_other by assumption. constructor.
Qed.

Lemma run_epoch_pick_none {B : Type} (f : event X -> option B) cfg rank e
  (st : State X) :
  (forall ev, epoch_event ev = true -> f ev = None) ->
  pick f (snd (run_epoch X cfg rank e st)) = [].
Proof.
  intros Hf. apply pick_none.
  eapply Forall_impl; [|apply run_epoch_epoch_events]. exact Hf.
Qed.

Lemma checkpoint_epochs_app (ev1 ev2 : list (event X)) :
  checkpoint_epochs (ev1 ++ ev2) =
  checkpoint_epochs ev1 ++ checkpoint_epochs ev2.
Proof.
  unfold checkpoint_epochs, saved_checkpoints.
  now rewrite pick_app, map_app.
Qed.

Lemma run_epoch_checkpoint_epochs cfg rank e (st : State X) :
  checkpoint_epochs (snd (run_epoch X cfg rank e st)) =
  if rank =? 0 then [e] else [].
Proof.
  unfold checkpoint_epochs, saved_checkpoints. rewrite run_epoch_pick_tail.
  2:{ intros [] H; try reflexivity; discriminate. }
  destruct (Nat.eq_dec rank 0) as [->|H].
  - rewrite save_phase_writer. unfold eval_events.
    destruct (e =? 0), (Qltb _ _), (Qltb _ _); reflexivity.
  - rewrite save_phase_other by assumption.
    apply Nat.eqb_neq in H. rewrite H.
    unfold eval_events. destruct (e =? 0); reflexivity.
Qed.

Lemma run_epoch_writes_other cfg rank e (st : State X) :
  rank <> 0 -> writes (snd (run_epoch X cfg rank e st)) = [].
Proof.
  intros H. rewrite run_epoch_eq. cbn [snd].
  rewrite save_phase_other by assumption. rewrite app_nil_r.
  unfold writes. cbn [filter is_write]. rewrite filter_app.
  rewrite (filter_none is_write (snd (train_batches _ _ _ _ _))).
  - unfold eval_events. destruct (e =? 0); reflexivity.
  - eapply Forall_impl; [|apply train_batches_batch_events].
    intros [] Hb; try discriminate; reflexivity.
Qed.

(** ** The epoch loop *)

Lemma epoch_loop_stop cfg rank e rest (st : State X) :
  train_interupter X (polls st) = true ->
  epoch_loop X cfg rank (e :: rest) st =
  (polled X st, [EvPoll e true], Stopped e).
Proof. intros H. simpl. now rewrite H. Qed.

Lemma epoch_loop_go cfg rank e rest (st : State X) :
  train_interupter X (polls st) = false ->
  epoch_loop X cfg rank (e :: rest) st =
  (fst (fst (epoch_loop X cfg rank rest
               (fst (run_epoch X cfg rank e (polled X st))))),
   EvPoll e false
   :: snd (run_epoch X cfg rank e (polled X st))
   ++ snd (fst (epoch_loop X cfg rank rest
                  (fst (run_epoch X cfg rank e (polled X st))))),
   snd (epoch_loop X cfg rank rest
          (fst (run_epoch X cfg rank e (polled X st))))).
Proof.
  intros H. simpl. rewrite H.
  destruct (run_epoch X cfg rank e (polled X st)) as [st1 ev1]. simpl.
  destruct (epoch_loop X cfg rank rest st1) as [[st2 ev2] out]. reflexivity.
Qed.

(** Induction along the iterations of the loop. *)
Lemma epoch_loop_induction cfg rank
  (P : list nat -> State X -> State X * list (event X) * outcome -> Prop) :
  (forall st, P [] st (st, [], Completed)) ->
  (forall e rest st,
      train_interupter X (polls st) = true ->
      P (e :: rest) st (polled X st, [EvPoll e true], Stopped e)) ->
  (forall e rest st st2 ev2 out,
      train_interupter X (polls st) = false ->
      epoch_loop X cfg rank rest (fst (run_epoch X cfg rank e (polled X st)))
      = (st2, ev2, out) ->
      P rest (fst (run_epoch X cfg rank e (polled X st))) (st2, ev2, out) ->
      P (e :: rest) st
        (st2,
         EvPoll e false :: snd (run_epoch X cfg rank e (polled X st)) ++ ev2,
         out)) ->
  forall epochs st, P epochs st (epoch_loop X cfg rank epochs st).
Proof.
  intros Hnil Hstop Hgo. induction epochs as [|e rest IH]; intros st.
  - apply Hnil.
  - destruct (train_interupter X (polls st)) eqn:E.
    + rewrite epoch_loop_stop by assumption. now apply Hstop.
    + rewrite epoch_loop_go by assumption.
      specialize (IH (fst (run_epoch X cfg rank e (polled X st)))).
      destruct (epoch_loop X cfg rank rest _) as [[st2 ev2] out] eqn:E2.
      simpl. now apply Hgo.
Qed.

(** The list of epochs splits into the entered ones, the one at which the
    loop stopped (if it did), and the ones never reached. *)
Lemma loop_entered cfg rank epochs (st : State X) :
  let '(_, ev, out) := epoch_loop X cfg rank epochs st in
  match out with
  | Completed => epochs = entered ev
  | Stopped k => exists rest, epochs = entered ev ++ k :: rest
  end.
Proof.
  apply (epoch_loop_induction cfg rank
    (fun epochs st r =>
       let '(_, ev, out) := r in
       match out with
       | Completed => epochs = entered ev
       | Stopped k => exists rest, epochs = entered ev ++ k :: rest
       end)).
  - reflexivity.
  - intros e rest st0 _. exists rest. reflexivity.
  - intros e rest st0 st2 ev2 out _ _ IH.
    assert (Hent : entered (EvPoll e false
                     :: snd (run_epoch X cfg rank e (polled X st0)) ++ ev2)
                   = e :: entered ev2).
    { unfold entered. cbn [pick]. rewrite pick_app.
      rewrite run_epoch_pick_none; [reflexivity|].
      intros [] H; try reflexivity; discriminate. }
    rewrite Hent. destruct out.
    + now rewrite IH.
    + destruct IH as [r ->]. exists r. reflexivity.
Qed.

Lemma loop_poll_log cfg rank epochs (st : State X) :
  let '(_, ev, out) := epoch_loop X cfg rank epochs st in
  poll_log ev =
  map (fun e => (e, false)) (entered ev)
  ++ match out with Completed => [] | Stopped k => [(k, true)] end.
Proof.
  apply (epoch_loop_induction cfg rank
    (fun epochs st r =>
       let '(_, ev, out) := r in
       poll_log ev =
       map (fun e => (e, false)) (entered ev)
       ++ match out with Completed => [] | Stopped k => [(k, true)] end)).
  - reflexivity.
  - reflexivity.
  - intros e rest st0 st2 ev2 out _ _ IH.
    unfold poll_log, entered in *. cbn [pick]. rewrite !pick_app.
    rewrite !run_epoch_pick_none;
      try (intros [] H; try reflexivity; discriminate).
    simpl. now rewrite IH.
Qed.

(** A reader that ignores the polls and reads the same entries [g e] from
    every run of epoch [e] reads them once per entered epoch. *)
Lemma loop_pick {B : Type} (f : event X -> option B) (g : nat -> list B)
  cfg rank epochs (st : State X) :
  (forall e a, f (EvPoll e a) = None) ->
  (forall e st, pick f (snd (run_epoch X cfg rank e st)) = g e) ->
  let '(_, ev, _) := epoch_loop X cfg rank epochs st in
  pick f ev = flat_map g (entered ev).
Proof.
  intros Hpoll Hg.
  apply (epoch_loop_induction cfg rank
    (fun epochs st r =>
       let '(_, ev, _) := r in pick f ev = flat_map g (entered ev))).
  - reflexivity.
  - intros e rest st0 _. cbn [pick]. now rewrite Hpoll.
  - intros e rest st0 st2 ev2 out _ _ IH.
    unfold entered in *. cbn [pick]. rewrite Hpoll, !pick_app.
    rewrite (run_epoch_pick_none
               (fun ev => match ev with EvPoll e false => Some e | _ => None end)).
    + cbn [app flat_map]. now rewrite IH, Hg.
    + intros [] H; try reflexivity; discriminate.
Qed.

Lemma loop_batches cfg rank epochs (st : State X) :
  let '(_, ev, _) := epoch_loop X cfg rank epochs st in
  batches ev =
  flat_map (fun e => map (pair e) (seq 0 (len_trainloader X))) (entered ev).
Proof.
  apply loop_pick; [reflexivity|].
  intros e st0. apply run_epoch_batches.
Qed.

Lemma loop_sched_iters cfg rank epochs (st : State X) :
  let '(_, ev, _) := epoch_loop X cfg rank epochs st in
  sched_iters ev =
  flat_map (fun e => seq (len_trainloader X * e) (len_trainloader X))
    (entered ev).
Proof.
  apply loop_pick; [reflexivity|].
  intros e st0. apply run_epoch_sched_iters.
Qed.

Lemma run_epoch_batch_scalar_steps cfg rank e tag (st : State X) :
  tag = LossTraining \/ tag = LearningRate ->
  scalar_steps tag (snd (run_epoch X cfg rank e st)) =
  seq (len_trainloader X * e) (len_trainloader X).
Proof.
  intros Htag. unfold scalar_steps. rewrite run_epoch_pick_batches.
  - fold (@scalar_steps X tag). rewrite train_batches_scalar_steps.
    rewrite map_add_seq, Nat.add_0_r. now destruct Htag as [-> | ->].
  - intros [] H; try reflexivity.
    destruct Htag as [-> | ->]; destruct tag0; try reflexivity; discriminate.
Qed.

Lemma loop_batch_scalar_steps cfg rank epochs tag (st : State X) :
  tag = LossTraining \/ tag = LearningRate ->
  let '(_, ev, _) := epoch_loop X cfg rank epochs st in
  scalar_steps tag ev =
  flat_map (fun e => seq (len_trainloader X * e) (len_trainloader X))
    (entered ev).
Proof.
  intros Htag. apply loop_pick; [reflexivity|].
  intros e st0. now apply run_epoch_batch_scalar_steps.
Qed.

Lemma loop_checkpoint_epochs cfg rank epochs (st : State X) :
  let '(_, ev, _) := epoch_loop X cfg rank epochs st in
  checkpoint_epochs ev = if rank =? 0 then entered ev else [].
Proof.
  apply (epoch_loop_induction cfg rank
    (fun epochs st r =>
       let '(_, ev, _) := r in
       checkpoint_epochs ev = if rank =? 0 then entered ev else [])).
  - now destruct (rank =? 0).
  - now destruct (rank =? 0).
  - intros e rest st0 st2 ev2 out _ _ IH.
    unfold entered in *. cbn [pick]. rewrite pick_app.
    rewrite run_epoch_pick_none;
      try (intros [] H; try reflexivity; discriminate).
    cbn [app].
    change (EvPoll e false :: ?a ++ ev2) with ((EvPoll e false :: a) ++ ev2).
    rewrite checkpoint_epochs_app, IH.
    change (checkpoint_epochs (EvPoll e false :: ?a))
      with (checkpoint_epochs a).
    rewrite run_epoch_checkpoint_epochs. now destruct (rank =? 0).
Qed.

Lemma loop_writes_other cfg rank epochs (st : State X) :
  rank <> 0 ->
  let '(_, ev, _) := epoch_loop X cfg rank epochs st in writes ev = [].
Proof.
  intros Hr.
  apply (epoch_loop_induction cfg rank
    (fun epochs st r => let '(_, ev, _) := r in writes ev = [])).
  - reflexivity.
  - reflexivity.
  - intros e rest st0 st2 ev2 out _ _ IH.
    unfold writes in *. cbn [filter is_write]. rewrite filter_app, IH.
    fold (writes (snd (run_epoch X cfg rank e (polled X st0)))).
    now rewrite run_epoch_writes_other.
Qed.

(** ** Consecutive epochs *)

Lemma seq_prefix (l r : list nat) : forall start n,
  seq start n = l ++ r -> l = seq start (length l).
Proof.
  induction l as [|a l IH]; intros start n H; [reflexivity|].
  destruct n as [|n]; [discriminate|].
  simpl in H. injection H as <- H. simpl. f_equal. eapply IH. exact H.
Qed.

Lemma seq_blocks (len m : nat) : forall start,
  flat_map (fun e => seq (len * e) len) (seq start m) =
  seq (len * start) (len * m).
Proof.
  induction m as [|m IH]; intros start.
  - now rewrite Nat.mul_0_r.
  - cbn [seq flat_map]. rewrite IH.
    replace (len * S m) with (len + len * m) by lia.
    rewrite seq_app. do 2 f_equal. lia.
Qed.

Lemma seq_increasing (n : nat) : forall a, StronglySorted lt (seq a n).
Proof.
  induction n as [|n IH]; intros a; simpl; constructor.
  - apply IH.
  - apply Forall_forall. intros x Hx. apply in_seq in Hx. lia.
Qed.

Lemma loop_entered_seq cfg rank start n (st : State X) :
  let '(_, ev, _) := epoch_loop X cfg rank (seq start n) st in
  entered ev = seq start (length (entered ev)) /\ length (entered ev) <= n.
Proof.
  pose proof (loop_entered cfg rank (seq start n) st) as H.
  destruct (epoch_loop X cfg rank (seq start n) st) as [[st' ev] out].
  assert (Hex : exists r, seq start n = entered ev ++ r).
  { destruct out; [exists []; now rewrite app_nil_r|].
    destruct H as [r ->]. eauto. }
  destruct Hex as [r Hr]. split.
  - eapply seq_prefix. exact Hr.
  - apply (f_equal (@length nat)) in Hr.
    rewrite length_seq, length_app in Hr. lia.
Qed.

(** ** C9 *)

(** C9.  The scheduler is stepped once for every batch taken from the
    loader, not once per epoch: along a run of the epoch loop over
    [range(start, start + n)], the iteration numbers of the scheduler steps
    are those of the batches, [len(trainloader) * epoch + batch_idx] each,
    the training-loss and learning-rate series are logged at the same
    numbers, and these numbers are consecutive from
    [len(trainloader) * start] on, hence strictly increasing.  A batch
    applies [scheduler.step()] once to the scheduler it found. *)
Theorem C9_schedule_steps_once_per_batch cfg rank start n e i
  (st st0 : State X) :
  let '(_, ev, _) := epoch_loop X cfg rank (seq start n) st in
  sched_iters ev =
    map (fun b => len_trainloader X * fst b + snd b) (batches ev) /\
  scalar_steps LossTraining ev = sched_iters ev /\
  scalar_steps LearningRate ev = sched_iters ev /\
  sched_iters ev =
    seq (len_trainloader X * start)
        (len_trainloader X * length (entered ev)) /\
  StronglySorted lt (sched_iters ev) /\
  sched_iters (snd (train_batch X cfg e i st0)) = [len_trainloader X * e + i] /\
  exists o,
    scheduler (fst (train_batch X cfg e i st0)) =
    fst (scheduler_step X (scheduler st0) o).
Proof.
  pose proof (loop_sched_iters cfg rank (seq start n) st) as Hs.
  pose proof (loop_batches cfg rank (seq start n) st) as Hb.
  pose proof (loop_batch_scalar_steps cfg rank (seq start n) LossTraining st
                (or_introl eq_refl)) as Hl.
  pose proof (loop_batch_scalar_steps cfg rank (seq start n) LearningRate st
                (or_intror eq_refl)) as Hr.
  pose proof (loop_entered_seq cfg rank start n st) as He.
  destruct (epoch_loop X cfg rank (seq start n) st) as [[st' ev] out].
  destruct He as [He _].
  assert (Hseq : sched_iters ev =
                 seq (len_trainloader X * start)
                     (len_trainloader X * length (entered ev))).
  { rewrite Hs. rewrite He at 1. apply seq_blocks. }
  repeat split.
  - rewrite Hs, Hb. clear. induction (entered ev) as [|a l IH];
      [reflexivity|].
    cbn [flat_map]. rewrite map_app, <- IH. f_equal.
    rewrite map_map. cbn [fst snd].
    now rewrite map_add_seq, Nat.add_0_r.
  - now rewrite Hl, Hs.
  - now rewrite Hr, Hs.
  - exact Hseq.
  - rewrite Hseq. apply seq_increasing.
  - destruct (train_batch_events cfg e i st0) as [lr ->]. reflexivity.
  - unfold train_batch.
    destruct (overflow X cfg st0 _);
      [|destruct (optimizer_step X _ _ _ _) as [p1 o1] eqn:Eo].
    + exists (optimizer st0).
      destruct (scheduler_step X _ _) as [s2 o2]. reflexivity.
    + exists o1. destruct (scheduler_step X _ _) as [s2 o2]. reflexivity.
Qed.

(** ** The interrupt check *)

Lemma pick_in {A B : Type} (f : A -> option B) (a : A) (b : B) (l : list A) :
  f a = Some b -> In a l -> In b (pick f l).
Proof.
  intros Hf. induction l as [|c l IH]; simpl; [tauto|].
  intros [->|H].
  - rewrite Hf. now left.
  - destruct (f c); [right|]; auto.
Qed.

(** In the event list of the loop, the batches of an epoch come after the
    poll that let the epoch in. *)
Lemma loop_poll_precedes_batches cfg rank epochs (st : State X) :
  let '(_, ev, _) := epoch_loop X cfg rank epochs st in
  forall ev1 e i ev2,
    ev = ev1 ++ EvBatch e i :: ev2 -> In (EvPoll e false) ev1.
Proof.
  apply (epoch_loop_induction cfg rank
    (fun epochs st r =>
       let '(_, ev, _) := r in
       forall ev1 e i ev2,
         ev = ev1 ++ EvBatch e i :: ev2 -> In (EvPoll e false) ev1)).
  - intros st0 [|a l] e i ev2 H; discriminate.
  - intros e0 rest st0 _ [|a [|b l]] e i ev2 H; discriminate.
  - intros e0 rest st0 st2 ev2' out _ _ IH ev1 e i ev2 H.
    destruct ev1 as [|a ev1']; [discriminate|].
    injection H as <- H.
    apply app_eq_app in H. destruct H as [l [[H1 H2]|[H1 H2]]].
    + destruct l as [|b l'].
      * simpl in H2. right. rewrite app_nil_r in H1. subst ev2'.
        exfalso. exact (IH [] e i ev2 eq_refl).
      * injection H2 as Hb H2. subst b. left.
        assert (Hin : In (e, i)
                        (batches (snd (run_epoch X cfg rank e0 (polled X st0))))).
        { unfold batches.
          apply (pick_in _ (EvBatch e i)); [reflexivity|].
          rewrite H1. apply in_or_app. right. now left. }
        rewrite run_epoch_batches in Hin. apply in_map_iff in Hin.
        destruct Hin as [x [Hx _]]. now injection Hx as -> _.
    + right. subst ev1'. apply in_or_app. right.
      apply (IH l e i ev2). exact H2.
Qed.

Lemma loop_until_stop cfg rank d : forall start n (st : State X),
  d < n ->
  (forall j, j < d -> train_interupter X (polls st + j) = false) ->
  train_interupter X (polls st + d) = true ->
  let '(st', ev, out) := epoch_loop X cfg rank (seq start n) st in
  out = Stopped (start + d) /\
  entered ev = seq start d /\
  polls st' = polls st + S d /\
  exists ev0, ev = ev0 ++ [EvPoll (start + d) true].
Proof.
  induction d as [|d IH]; intros start n st Hn Hgo Hstop;
    (destruct n as [|n]; [lia|]); cbn [seq].
  - rewrite Nat.add_0_r in Hstop. rewrite epoch_loop_stop by assumption.
    rewrite Nat.add_0_r. cbn. repeat split; [lia|]. now exists [].
  - rewrite epoch_loop_go
      by (rewrite <- (Nat.add_0_r (polls st)); apply Hgo; lia).
    set (st1 := fst (run_epoch X cfg rank start (polled X st))).
    assert (Hp : polls st1 = S (polls st))
      by (unfold st1; now rewrite run_epoch_polls).
    specialize (IH (S start) n st1).
    destruct (epoch_loop X cfg rank (seq (S start) n) st1)
      as [[st2 ev2] out].
    destruct IH as (Hout & Hent & Hpolls & ev0 & Hev).
    + lia.
    + intros j Hj. rewrite Hp.
      replace (S (polls st) + j) with (polls st + S j) by lia.
      apply Hgo. lia.
    + rewrite Hp. replace (S (polls st) + d) with (polls st + S d) by lia.
      exact Hstop.
    + cbn [fst snd]. repeat split.
      * rewrite Hout. f_equal. lia.
      * unfold entered in *. cbn [pick]. rewrite pick_app, Hent.
        rewrite run_epoch_pick_none; [reflexivity|].
        intros [] H; try reflexivity; discriminate.
      * rewrite Hpolls, Hp. lia.
      * exists (EvPoll start false
                :: snd (run_epoch X cfg rank start (polled X st)) ++ ev0).
        rewrite Hev. replace (S start + d) with (start + S d) by lia.
        cbn [app]. now rewrite app_assoc.
Qed.

(** ** C7 *)

(** C7.  The interrupt predicate is called at the head of each iteration of
    the epoch loop and nowhere else.  If, in a loop over
    [range(start, start + n)], its first true answer comes at the poll of
    epoch [k], then the loop stops at [k]: the polls are one per epoch from
    [start] to [k], in order, and the predicate was called once for each;
    the poll of [k] is the last event; the batches taken are all the
    batches of the epochs before [k] and none of epoch [k]; every batch
    comes after the poll of its own epoch; and the checkpoint records
    written (on rank 0) are those of the epochs [start .. k-1], so that the
    last one written, if [start < k], is that of epoch [k - 1]. *)
Theorem C7_interrupt_at_epoch_boundary cfg rank start n k (st : State X) :
  start <= k < start + n ->
  (forall j, j < k - start -> train_interupter X (polls st + j) = false) ->
  train_interupter X (polls st + (k - start)) = true ->
  let '(st', ev, out) := epoch_loop X cfg rank (seq start n) st in
  out = Stopped k /\
  poll_log ev =
    map (fun e => (e, false)) (seq start (k - start)) ++ [(k, true)] /\
  polls st' = polls st + List.length (poll_log ev) /\
  (exists ev0, ev = ev0 ++ [EvPoll k true]) /\
  batches ev =
    flat_map (fun e => map (pair e) (seq 0 (len_trainloader X)))
      (seq start (k - start)) /\
  (forall i, ~ In (k, i) (batches ev)) /\
  (forall ev1 e i ev2,
      ev = ev1 ++ EvBatch e i :: ev2 -> In (EvPoll e false) ev1) /\
  checkpoint_epochs ev = (if rank =? 0 then seq start (k - start) else []) /\
  (rank = 0 -> start < k ->
   exists cks ck, saved_checkpoints ev = cks ++ [ck] /\ epoch ck = k - 1).
Proof.
  intros Hk Hgo Hstop.
  pose proof (loop_until_stop cfg rank (k - start) start n st
                ltac:(lia) Hgo Hstop) as H.
  pose proof (loop_poll_log cfg rank (seq start n) st) as Hlog.
  pose proof (loop_batches cfg rank (seq start n) st) as Hb.
  pose proof (loop_poll_precedes_batches cfg rank (seq start n) st) as Hpre.
  pose proof (loop_checkpoint_epochs cfg rank (seq start n) st) as Hck.
  destruct (epoch_loop X cfg rank (seq start n) st) as [[st' ev] out].
  destruct H as (Hout & Hent & Hpolls & Hlast).
  replace (start + (k - start)) with k in * by lia.
  rewrite Hent in *. subst out.
  assert (Hbk : forall i, ~ In (k, i) (batches ev)).
  { intros i Hin. rewrite Hb in Hin. apply in_flat_map in Hin.
    destruct Hin as [e [He Hin]]. apply in_seq in He.
    apply in_map_iff in Hin. destruct Hin as [x [Hx _]].
    injection Hx as -> _. lia. }
  repeat split; try assumption.
  - rewrite Hpolls, Hlog, length_app, length_map, length_seq. simpl. lia.
  - intros -> Hlt. simpl in Hck.
    replace (k - start) with ((k - start - 1) + 1) in Hck by lia.
    rewrite seq_app in Hck. unfold checkpoint_epochs in Hck.
    apply map_eq_app in Hck. destruct Hck as (cks & l2 & Heq & _ & H2).
    simpl in H2. destruct l2 as [|ck [|? ?]]; try discriminate.
    injection H2 as H2. exists cks, ck. split; [exact Heq|]. lia.
Qed.

(** ** Writers and the best-model artifacts *)

Lemma main_writes_other cfg :
  ddp cfg = true -> get_rank X <> 0 -> writes (run_events (main X cfg)) = [].
Proof.
  intros Hd Hr. unfold main, init_distributed. rewrite Hd.
  destruct (is_nccl_available X); [|reflexivity].
  destruct (is_initialized X); [|reflexivity].
  unfold resume. destruct (resume_training cfg) as [path|].
  - rewrite Hd. destruct (torch_load X path) as [ck|]; [|reflexivity].
    destruct (restore X cfg ck (built X cfg)) as [st0 start].
    pose proof (loop_writes_other cfg (get_rank X) (epoch_range cfg start)
                  st0 Hr) as H.
    destruct (epoch_loop X cfg (get_rank X) _ st0) as [[st ev] out].
    cbn [run_events]. unfold writes in *. cbn [app filter is_write].
    now rewrite filter_app, H.
  - pose proof (loop_writes_other cfg (get_rank X) (epoch_range cfg 0)
                  (built X cfg) Hr) as H.
    destruct (epoch_loop X cfg (get_rank X) _ _) as [[st ev] out].
    cbn [run_events]. unfold writes in *. cbn [app filter is_write].
    now rewrite filter_app, H.
Qed.

(** ** C8 *)

(** C8.  On a process whose rank is not 0 the checkpoint phase is a no-op
    and the whole loop (and, under DDP, the whole script) performs no
    [torch.save]; on rank 0 every epoch that is entered writes the
    checkpoint record once, whatever the scores are, and the record is the
    first thing the checkpoint phase writes, holding the four state dicts
    and the epoch's number and scores. *)
Theorem C8_only_rank_zero_writes cfg rank epochs e loss metric
  (st st0 : State X) :
  let '(_, ev, _) := epoch_loop X cfg rank epochs st in
  (if rank =? 0 then
     checkpoint_epochs ev = entered ev /\
     hd_error (snd (save_phase X rank e loss metric st0)) =
     Some (EvSaveCheckpoint
             {| model_state_dict := state_dict (model st0);
                optimizer_state_dict := optimizer st0;
                scheduler_state_dict := scheduler st0;
                scaler_state_dict := scaler st0;
                epoch := e; miou := metric; val_loss := loss |})
   else
     writes ev = [] /\
     checkpoint_epochs ev = [] /\
     save_phase X rank e loss metric st0 = (st0, [])) /\
  (if ddp cfg && negb (get_rank X =? 0)
   then writes (run_events (main X cfg)) = []
   else True).
Proof.
  pose proof (loop_checkpoint_epochs cfg rank epochs st) as Hck.
  pose proof (loop_writes_other cfg rank epochs st) as Hw.
  destruct (epoch_loop X cfg rank epochs st) as [[st' ev] out].
  split.
  - destruct (Nat.eqb_spec rank 0) as [->|Hr].
    + split; [exact Hck|]. now rewrite save_phase_writer.
    + repeat split; auto. now apply save_phase_other.
  - destruct (ddp cfg) eqn:Hd; [|exact I].
    destruct (Nat.eqb_spec (get_rank X) 0) as [|Hr]; [exact I|].
    now apply main_writes_other.
Qed.

Lemma run_epoch_best_miou_saves cfg e (st : State X) :
  best_miou_saves (snd (run_epoch X cfg 0 e st)) =
  if Qltb (prev_miou st) (snd (epoch_scores X cfg e st))
  then [state_dict (model (trained X cfg e st))] else [].
Proof.
  unfold best_miou_saves. rewrite run_epoch_pick_tail.
  2:{ intros [] H; try reflexivity; discriminate. }
  rewrite save_phase_writer. unfold eval_events.
  destruct (trained_trackers cfg e st) as (-> & -> & _).
  destruct (e =? 0), (Qltb (prev_miou st) _), (Qltb _ (prev_val_loss st));
    reflexivity.
Qed.

Lemma run_epoch_best_val_loss_saves cfg e (st : State X) :
  best_val_loss_saves (snd (run_epoch X cfg 0 e st)) =
  if Qltb (fst (epoch_scores X cfg e st)) (prev_val_loss st)
  then [state_dict (model (trained X cfg e st))] else [].
Proof.
  unfold best_val_loss_saves. rewrite run_epoch_pick_tail.
  2:{ intros [] H; try reflexivity; discriminate. }
  rewrite save_phase_writer. unfold eval_events.
  destruct (trained_trackers cfg e st) as (-> & -> & _).
  destruct (e =? 0), (Qltb (prev_miou st) _), (Qltb _ (prev_val_loss st));
    reflexivity.
Qed.

Lemma run_epoch_trackers cfg rank e (st : State X) :
  prev_miou (fst (run_epoch X cfg rank e st)) =
    (if (rank =? 0) && Qltb (prev_miou st) (snd (epoch_scores X cfg e st))
     then snd (epoch_scores X cfg e st) else prev_miou st) /\
  prev_val_loss (fst (run_epoch X cfg rank e st)) =
    (if (rank =? 0) && Qltb (fst (epoch_scores X cfg e st)) (prev_val_loss st)
     then fst (epoch_scores X cfg e st) else prev_val_loss st).
Proof.
  rewrite run_epoch_eq. cbn [fst].
  destruct (trained_trackers cfg e st) as (Hm & Hl & _).
  destruct (Nat.eqb_spec rank 0) as [->|Hr].
  - rewrite save_phase_writer. cbn. now rewrite Hm, Hl.
  - rewrite save_phase_other by assumption. cbn. auto.
Qed.

(** ** C3 *)

(** C3.  In the checkpoint phase of an epoch on the writing process, the
    best-mIoU artifact is written exactly when the epoch's mIoU is strictly
    greater than [prev_miou], and the best-loss artifact exactly when the
    epoch's validation loss is strictly less than [prev_val_loss]; a tie
    writes nothing.  Each comparison stands alone, and each tracker takes
    the epoch's value when its artifact is written and keeps its own
    otherwise.  On a fresh run with the mIoU sequence
    0.10, 0.45, 0.30, 0.45, 0.50 and the loss sequence
    2.0, 1.0, 1.5, 1.0, 0.8, both artifacts are written at epochs 0, 1 and
    4 and at no other. *)
Theorem C3_best_artifacts_strict cfg e (st : State X) :
  let loss := fst (epoch_scores X cfg e st) in
  let metric := snd (epoch_scores X cfg e st) in
  let sd := state_dict (model (trained X cfg e st)) in
  let '(st', ev) := run_epoch X cfg 0 e st in
  ((prev_miou st < metric)%Q <-> best_miou_saves ev = [sd]) /\
  ((metric <= prev_miou st)%Q <-> best_miou_saves ev = []) /\
  ((loss < prev_val_loss st)%Q <-> best_val_loss_saves ev = [sd]) /\
  ((prev_val_loss st <= loss)%Q <-> best_val_loss_saves ev = []) /\
  prev_miou st' =
    (if Qltb (prev_miou st) metric then metric else prev_miou st) /\
  prev_val_loss st' =
    (if Qltb loss (prev_val_loss st) then loss else prev_val_loss st) /\
  best_miou_writes (run_events example_run) =
    [Some (0, 0.10%Q); Some (1, 0.45%Q); Some (4, 0.50%Q)] /\
  best_val_loss_writes (run_events example_run) =
    [Some (0, 2.0%Q); Some (1, 1.0%Q); Some (4, 0.8%Q)] /\
  entered (run_events example_run) = [0; 1; 2; 3; 4].
Proof.
  intros loss metric sd.
  pose proof (run_epoch_best_miou_saves cfg e st) as Hm.
  pose proof (run_epoch_best_val_loss_saves cfg e st) as Hl.
  pose proof (run_epoch_trackers cfg 0 e st) as [Htm Htl].
  destruct (run_epoch X cfg 0 e st) as [st' ev]. cbn [fst snd] in *.
  fold loss metric sd in Hm, Hl, Htm, Htl.
  rewrite Hm, Hl.
  pose proof (Qltb_lt (prev_miou st) metric) as Elt.
  pose proof (Qltb_ge (prev_miou st) metric) as Ege.
  pose proof (Qltb_lt loss (prev_val_loss st)) as Flt.
  pose proof (Qltb_ge loss (prev_val_loss st)) as Fge.
  repeat split; try assumption;
    try (destruct (Qltb (prev_miou st) metric); intuition congruence);
    try (destruct (Qltb loss (prev_val_loss st)); intuition congruence);
    vm_compute; reflexivity.
Qed.

(** ** The trackers along the loop *)

Lemma run_epoch_tracker_step cfg rank e (st : State X) :
  (prev_miou (fst (run_epoch X cfg rank e st)) = prev_miou st \/
   prev_miou (fst (run_epoch X cfg rank e st)) = snd (epoch_scores X cfg e st)
   /\ (prev_miou st < prev_miou (fst (run_epoch X cfg rank e st)))%Q) /\
  (prev_val_loss (fst (run_epoch X cfg rank e st)) = prev_val_loss st \/
   prev_val_loss (fst (run_epoch X cfg rank e st))
   = fst (epoch_scores X cfg e st)
   /\ (prev_val_loss (fst (run_epoch X cfg rank e st)) < prev_val_loss st)%Q).
Proof.
  destruct (run_epoch_trackers cfg rank e st) as [-> ->].
  destruct (rank =? 0); cbn [andb]; [|auto].
  split.
  - destruct (Qltb (prev_miou st) _) eqn:E; [|auto].
    right. split; [reflexivity|]. now apply Qltb_lt.
  - destruct (Qltb _ (prev_val_loss st)) eqn:E; [|auto].
    right. split; [reflexivity|]. now apply Qltb_lt.
Qed.

Lemma run_epoch_monotone cfg rank e (st : State X) :
  (prev_miou st <= prev_miou (fst (run_epoch X cfg rank e st)))%Q /\
  (prev_val_loss (fst (run_epoch X cfg rank e st)) <= prev_val_loss st)%Q.
Proof.
  destruct (run_epoch_tracker_step cfg rank e st) as [[->|[_ Hm]] [->|[_ Hl]]];
    split; try apply Qle_refl; now apply Qlt_le_weak.
Qed.

Lemma loop_monotone cfg rank epochs (st : State X) :
  let '(st', _, _) := epoch_loop X cfg rank epochs st in
  (prev_miou st <= prev_miou st')%Q /\
  (prev_val_loss st' <= prev_val_loss st)%Q.
Proof.
  apply (epoch_loop_induction cfg rank
    (fun epochs st r =>
       let '(st', _, _) := r in
       (prev_miou st <= prev_miou st')%Q /\
       (prev_val_loss st' <= prev_val_loss st)%Q)).
  - intros st0. split; apply Qle_refl.
  - intros e rest st0 _. split; apply Qle_refl.
  - intros e rest st0 st2 ev2 out _ _ [IHm IHl].
    destruct (run_epoch_monotone cfg rank e (polled X st0)) as [Hm Hl].
    cbn [polled prev_miou prev_val_loss] in Hm, Hl. split.
    + eapply Qle_trans; eassumption.
    + eapply Qle_trans; eassumption.
Qed.

Lemma loop_app cfg rank l1 l2 : forall st : State X,
  epoch_loop X cfg rank (l1 ++ l2) st =
  match epoch_loop X cfg rank l1 st with
  | (st1, ev1, Completed) =>
      (fst (fst (epoch_loop X cfg rank l2 st1)),
       ev1 ++ snd (fst (epoch_loop X cfg rank l2 st1)),
       snd (epoch_loop X cfg rank l2 st1))
  | r => r
  end.
Proof.
  induction l1 as [|e l1 IH]; intros st.
  - cbn [app epoch_loop].
    now destruct (epoch_loop X cfg rank l2 st) as [[st2 ev2] out].
  - cbn [app]. destruct (train_interupter X (polls st)) eqn:E.
    + now rewrite !epoch_loop_stop by assumption.
    + rewrite !epoch_loop_go by assumption. rewrite IH.
      destruct (epoch_loop X cfg rank l1 _) as [[st1 ev1] [|k]];
        cbn [fst snd]; [|reflexivity].
      now rewrite app_assoc.
Qed.

Lemma firstn_plus {A : Type} (i d : nat) : forall l : list A,
  firstn (i + d) l = firstn i l ++ firstn d (skipn i l).
Proof.
  induction i as [|i IH]; intros l; [reflexivity|].
  destruct l as [|a l]; cbn [Nat.add firstn skipn app].
  - now rewrite firstn_nil.
  - now rewrite IH.
Qed.

(** ** C4 *)

(** C4.  Along the epoch loop, over any list of epochs and from any
    starting values, on any rank and whatever the scores: the state after
    [i + d] epochs has a [prev_miou] no smaller and a [prev_val_loss] no
    larger than the state after [i] epochs (the state after 0 epochs being
    the starting one).  Over one epoch each tracker either keeps its value
    or takes the score the evaluation of that epoch returned, and the
    latter only when that score is strictly better than the value
    held. *)
Theorem C4_trackers_monotone cfg rank epochs i d e (st st0 : State X) :
  (prev_miou (state_after X cfg rank epochs st i)
   <= prev_miou (state_after X cfg rank epochs st (i + d)))%Q /\
  (prev_val_loss (state_after X cfg rank epochs st (i + d))
   <= prev_val_loss (state_after X cfg rank epochs st i))%Q /\
  state_after X cfg rank epochs st 0 = st /\
  (prev_miou (fst (run_epoch X cfg rank e st0)) = prev_miou st0 \/
   prev_miou (fst (run_epoch X cfg rank e st0))
   = snd (epoch_scores X cfg e st0)
   /\ (prev_miou st0 < snd (epoch_scores X cfg e st0))%Q) /\
  (prev_val_loss (fst (run_epoch X cfg rank e st0)) = prev_val_loss st0 \/
   prev_val_loss (fst (run_epoch X cfg rank e st0))
   = fst (epoch_scores X cfg e st0)
   /\ (fst (epoch_scores X cfg e st0) < prev_val_loss st0)%Q).
Proof.
  assert (Hmono :
    (prev_miou (state_after X cfg rank epochs st i)
     <= prev_miou (state_after X cfg rank epochs st (i + d)))%Q /\
    (prev_val_loss (state_after X cfg rank epochs st (i + d))
     <= prev_val_loss (state_after X cfg rank epochs st i))%Q).
  { unfold state_after. rewrite firstn_plus, loop_app.
    destruct (epoch_loop X cfg rank (firstn i epochs) st)
      as [[st1 ev1] [|k]]; cbn [fst snd].
    - pose proof (loop_monotone cfg rank (firstn d (skipn i epochs)) st1) as H.
      now destruct (epoch_loop X cfg rank _ st1) as [[st2 ev2] out].
    - split; apply Qle_refl. }
  destruct Hmono as [Hm Hl].
  destruct (run_epoch_tracker_step cfg rank e st0) as [Sm Sl].
  repeat split; try assumption.
  - destruct Sm as [Sm|[Sm Sm']]; [now left|right].
    split; [exact Sm|]. now rewrite <- Sm.
  - destruct Sl as [Sl|[Sl Sl']]; [now left|right].
    split; [exact Sl|]. now rewrite <- Sl.
Qed.

(** ** Resuming *)

Lemma loop_first_poll cfg rank e rest (st : State X) :
  hd_error (poll_log (snd (fst (epoch_loop X cfg rank (e :: rest) st)))) =
  Some (e, train_interupter X (polls st)).
Proof.
  destruct (train_interupter X (polls st)) eqn:E.
  - now rewrite epoch_loop_stop.
  - now rewrite epoch_loop_go.
Qed.

Lemma epoch_range_head cfg start :
  start < cfg_epoch cfg ->
  epoch_range cfg start = start :: seq (S start) (cfg_epoch cfg - S start).
Proof.
  intros H. unfold epoch_range.
  replace (cfg_epoch cfg - start) with (S (cfg_epoch cfg - S start)) by lia.
  reflexivity.
Qed.

Lemma epoch_range_empty cfg start :
  cfg_epoch cfg <= start -> epoch_range cfg start = [].
Proof.
  intros H. unfold epoch_range.
  now replace (cfg_epoch cfg - start) with 0 by lia.
Qed.

(** ** C5 *)

(** C5.  The checkpoint phase of epoch [e] (on the writing process) writes
    one record, whose [epoch] field is [e].  A run that resumes from such a
    record gets [start_epoch = e + 1]: its loop ranges over
    [range(e + 1, cfg[model_name]['epoch'])], so that, when that range is
    not empty, the first epoch polled and entered is [e + 1]. *)
Theorem C5_checkpoint_epoch_and_resume cfg cfg' path e rank ck
  (st st0 : State X) :
  In ck (saved_checkpoints (snd (run_epoch X cfg 0 e st))) ->
  resume_training cfg' = Some path ->
  torch_load X path = Some ck ->
  checkpoint_epochs (snd (run_epoch X cfg 0 e st)) = [e] /\
  epoch ck = e /\
  exists st1 evs,
    resume X cfg' st0 = (evs, inr (st1, e + 1)) /\
    epoch_range cfg' (e + 1) = seq (e + 1) (cfg_epoch cfg' - (e + 1)) /\
    hd_error
      (poll_log
         (snd (fst (epoch_loop X cfg' rank (epoch_range cfg' (e + 1)) st1))))
    = if e + 1 <? cfg_epoch cfg'
      then Some (e + 1, train_interupter X (polls st1)) else None.
Proof.
  intros Hin Hpath Hload.
  pose proof (run_epoch_checkpoint_epochs cfg 0 e st) as Hck.
  cbn [Nat.eqb] in Hck.
  assert (He : epoch ck = e).
  { unfold checkpoint_epochs in Hck.
    apply (in_map epoch) in Hin. rewrite Hck in Hin.
    destruct Hin as [<-|[]]. reflexivity. }
  repeat split; try assumption.
  unfold resume. rewrite Hpath, Hload.
  destruct (restore X cfg' ck st0) as [st1 start] eqn:Er.
  assert (Hs : start = e + 1).
  { unfold restore in Er. injection Er as _ <-. now rewrite He. }
  subst start. eexists st1, _. repeat split.
  destruct (Nat.ltb_spec (e + 1) (cfg_epoch cfg')) as [Hlt|Hge].
  - rewrite epoch_range_head by assumption. apply loop_first_poll.
  - now rewrite epoch_range_empty.
Qed.

(** ** C6 *)

(** C6.  With [fine_tuning_batchnorm] set, resuming loads the model's state
    dict from the checkpoint and freezes the batch-normalisation layers;
    the optimizer, the scheduler and the scaler are the ones just built,
    none of their state dicts is loaded; and [start_epoch] is the
    checkpoint's [epoch] plus one. *)
Theorem C6_fine_tune_resume cfg path ck :
  resume_training cfg = Some path ->
  fine_tuning_batchnorm cfg = true ->
  torch_load X path = Some ck ->
  exists st evs,
    resume X cfg (built X cfg) = (evs, inr (st, epoch ck + 1)) /\
    state_dict (model st) = model_state_dict ck /\
    bn_frozen (model st) = true /\
    optimizer st = build_optimizer X /\
    scheduler st = build_scheduler X /\
    scaler st = new_scaler X.
Proof.
  intros Hpath Hft Hload. unfold resume. rewrite Hpath, Hload.
  unfold restore. rewrite Hft.
  eexists _, _. split; [reflexivity|]. cbn.
  unfold state_dict, load_state_dict. cbn.
  split; [symmetry; apply surjective_pairing|auto].
Qed.

(** ** Attributing the best-model writes to epochs *)

Lemma attributed_silent tag is_save (l1 l2 : list (event X)) :
  Forall (fun ev => silent tag is_save ev = true) l1 ->
  forall last,
    attributed tag is_save last (l1 ++ l2) = attributed tag is_save last l2.
Proof.
  induction 1 as [|ev l1 Hev _ IH]; intros last; [reflexivity|].
  cbn [app attributed].
  destruct ev; cbn [silent] in Hev;
    try (apply negb_true_iff in Hev; rewrite Hev; apply IH).
Qed.

Lemma attributed_app tag is_save (l1 l2 : list (event X)) : forall last,
  exists last',
    attributed tag is_save last (l1 ++ l2) =
    attributed tag is_save last l1 ++ attributed tag is_save last' l2.
Proof.
  induction l1 as [|ev l1 IH]; intros last; [now exists last|].
  cbn [app attributed].
  destruct ev;
    try (destruct (is_save _);
         [destruct (IH last) as [last' ->]; now exists last'|apply IH]).
  destruct (scalar_tag_eqb tag0 tag); apply IH.
Qed.

Lemma train_batches_silent cfg e idxs (st : State X) :
  Forall (fun ev => silent LossValidation is_best_val_loss_save ev = true)
    (snd (train_batches X cfg e idxs st)).
Proof.
  eapply Forall_impl; [|apply train_batches_batch_events].
  intros [] H; try discriminate; try reflexivity.
  destruct tag; try discriminate; reflexivity.
Qed.

Lemma run_epoch_best_val_loss_writes cfg rank e last (st : State X) :
  attributed LossValidation is_best_val_loss_save last
    (snd (run_epoch X cfg rank e st)) =
  if (rank =? 0) && Qltb (fst (epoch_scores X cfg e st)) (prev_val_loss st)
  then [Some (e, fst (epoch_scores X cfg e st))] else [].
Proof.
  rewrite run_epoch_eq. cbn [snd].
  change (EvSetEpoch e :: ?a ++ ?b) with ([EvSetEpoch e] ++ a ++ b).
  rewrite (attributed_silent _ _ [EvSetEpoch e]) by repeat constructor.
  rewrite (attributed_silent _ _ (snd (train_batches X cfg e _ _)))
    by apply train_batches_silent.
  destruct (trained_trackers cfg e st) as (Hm & Hl & _).
  destruct (Nat.eqb_spec rank 0) as [->|Hr].
  - rewrite save_phase_writer, Hm, Hl. unfold eval_events.
    destruct (e =? 0), (Qltb (prev_miou st) _), (Qltb _ (prev_val_loss st));
      reflexivity.
  - rewrite save_phase_other by assumption.
    unfold eval_events. destruct (e =? 0); reflexivity.
Qed.

Lemma run_epoch_best_val_loss_saves_any cfg rank e (st : State X) :
  (prev_val_loss st <= fst (epoch_scores X cfg e st))%Q ->
  best_val_loss_saves (snd (run_epoch X cfg rank e st)) = [] /\
  prev_val_loss (fst (run_epoch X cfg rank e st)) = prev_val_loss st.
Proof.
  intros Hge. apply Qltb_ge in Hge.
  destruct (run_epoch_trackers cfg rank e st) as [_ ->].
  rewrite Hge, andb_false_r. split; [|reflexivity].
  unfold best_val_loss_saves. rewrite run_epoch_pick_tail.
  2:{ intros [] H; try reflexivity; discriminate. }
  destruct (trained_trackers cfg e st) as (Hm & Hl & _).
  destruct (Nat.eq_dec rank 0) as [->|Hr].
  - rewrite save_phase_writer, Hm, Hl, Hge. unfold eval_events.
    destruct (e =? 0), (Qltb (prev_miou st) _); reflexivity.
  - rewrite save_phase_other by assumption.
    unfold eval_events. destruct (e =? 0); reflexivity.
Qed.

Lemma loop_best_val_loss_writes cfg rank epochs (st : State X) :
  (prev_val_loss st <= 100)%Q ->
  let '(st', ev, _) := epoch_loop X cfg rank epochs st in
  (forall last,
      Forall below_100
        (attributed LossValidation is_best_val_loss_save last ev)) /\
  (prev_val_loss st' <= 100)%Q.
Proof.
  apply (epoch_loop_induction cfg rank
    (fun epochs st r =>
       (prev_val_loss st <= 100)%Q ->
       let '(st', ev, _) := r in
       (forall last,
           Forall below_100
             (attributed LossValidation is_best_val_loss_save last ev)) /\
       (prev_val_loss st' <= 100)%Q)).
  - intros st0 H. split; [constructor|exact H].
  - intros e rest st0 _ H. split; [constructor|exact H].
  - intros e rest st0 st2 ev2 out _ _ IH H.
    destruct (run_epoch_monotone cfg rank e (polled X st0)) as [_ Hl].
    cbn [polled prev_val_loss] in Hl.
    destruct IH as [IHw IHl]; [eapply Qle_trans; eassumption|].
    split; [|exact IHl]. intros last. cbn [attributed is_best_val_loss_save].
    destruct (attributed_app LossValidation is_best_val_loss_save
                (snd (run_epoch X cfg rank e (polled X st0))) ev2 last)
      as [last' ->].
    apply Forall_app. split; [|apply IHw].
    rewrite run_epoch_best_val_loss_writes.
    destruct (rank =? 0); cbn [andb]; [|constructor].
    destruct (Qltb _ _) eqn:E; constructor; [|constructor].
    apply Qltb_lt in E. cbn [polled prev_val_loss] in E.
    eexists _, _. split; [reflexivity|].
    eapply Qlt_le_trans; eassumption.
Qed.

Lemma loop_no_best_val_loss cfg rank epochs (st : State X) :
  (forall e p b, (100 <= fst (evaluate X e p b))%Q) ->
  (prev_val_loss st <= 100)%Q ->
  let '(st', ev, _) := epoch_loop X cfg rank epochs st in
  best_val_loss_saves ev = [] /\ (prev_val_loss st' <= 100)%Q.
Proof.
  intros Hall.
  apply (epoch_loop_induction cfg rank
    (fun epochs st r =>
       (prev_val_loss st <= 100)%Q ->
       let '(st', ev, _) := r in
       best_val_loss_saves ev = [] /\ (prev_val_loss st' <= 100)%Q)).
  - intros st0 H. split; [reflexivity|exact H].
  - intros e rest st0 _ H. split; [reflexivity|exact H].
  - intros e rest st0 st2 ev2 out _ _ IH H.
    destruct (run_epoch_best_val_loss_saves_any cfg rank e (polled X st0))
      as [Hs Hp].
    { cbn [polled prev_val_loss]. eapply Qle_trans; [exact H|].
      unfold epoch_scores. apply Hall. }
    cbn [polled prev_val_loss] in Hp.
    destruct IH as [IHs IHl]; [now rewrite Hp|].
    split; [|exact IHl].
    unfold best_val_loss_saves in *. cbn [pick].
    now rewrite pick_app, Hs, IHs.
Qed.

Lemma main_fresh cfg :
  resume_training cfg = None ->
  (exists err, run_outcome (main X cfg) = None /\
               run_error (main X cfg) = Some err /\
               (run_events (main X cfg) = [] \/
                run_events (main X cfg) = [EvInitProcessGroup])) \/
  exists ev0 rank,
    (ev0 = [] \/ ev0 = [EvInitProcessGroup]) /\
    run_events (main X cfg) =
    ev0 ++ snd (fst (epoch_loop X cfg rank (epoch_range cfg 0) (built X cfg)))
        ++ [EvWriterClose; EvDestroyProcessGroup].
Proof.
  intros Hres. unfold main, init_distributed, resume. rewrite Hres.
  destruct (ddp cfg).
  - destruct (is_nccl_available X);
      [|left; exists NcclNotAvailable; auto].
    destruct (is_initialized X);
      [|left; exists DdpNotInitialized; auto].
    right. exists [EvInitProcessGroup], (get_rank X).
    destruct (epoch_loop X cfg (get_rank X) _ _) as [[st ev] out]. auto.
  - right. exists [], 0.
    destruct (epoch_loop X cfg 0 _ _) as [[st ev] out]. auto.
Qed.

(** ** C10 *)

(** C10.  A run that does not resume enters the loop at epoch 0 with
    [prev_miou = 0.0] and [prev_val_loss = 100].  Every write of the
    best-loss artifact in such a run comes in an epoch whose logged
    validation loss is strictly below 100; and when the evaluation never
    returns a validation loss below 100, the artifact is not written at
    all. *)
Theorem C10_fresh_loss_bound cfg (st : State X) :
  resume_training cfg = None ->
  resume X cfg st = ([], inr (st, 0)) /\
  prev_miou (built X cfg) = 0%Q /\
  prev_val_loss (built X cfg) = 100%Q /\
  Forall below_100 (best_val_loss_writes (run_events (main X cfg))) /\
  ((forall e p b, (100 <= fst (evaluate X e p b))%Q) ->
   best_val_loss_saves (run_events (main X cfg)) = []).
Proof.
  intros Hres.
  split; [unfold resume; now rewrite Hres|].
  split; [reflexivity|]. split; [reflexivity|].
  assert (H100 : (prev_val_loss (built X cfg) <= 100)%Q) by apply Qle_refl.
  destruct (main_fresh cfg Hres) as
    [(err & _ & _ & [-> | ->])|(ev0 & rank & Hev0 & ->)].
  - split; [constructor|reflexivity].
  - split; [constructor|reflexivity].
  - pose proof (loop_best_val_loss_writes cfg rank (epoch_range cfg 0)
                  (built X cfg) H100) as Hw.
    pose proof (fun Hall => loop_no_best_val_loss cfg rank (epoch_range cfg 0)
                  (built X cfg) Hall H100) as Hn.
    destruct (epoch_loop X cfg rank _ _) as [[st' ev] out]. cbn [fst snd].
    destruct Hw as [Hw _]. split.
    + unfold best_val_loss_writes. rewrite attributed_silent
        by (destruct Hev0 as [-> | ->]; repeat constructor).
      destruct (attributed_app LossValidation is_best_val_loss_save ev
                  [EvWriterClose; EvDestroyProcessGroup] None) as [last' ->].
      cbn. rewrite app_nil_r. apply Hw.
    + intros Hall. destruct (Hn Hall) as [Hs _].
      unfold best_val_loss_saves in *. rewrite !pick_app, Hs.
      destruct Hev0 as [-> | ->]; reflexivity.
Qed.

(** ** The gradient scaler and the scheduler *)

Lemma train_batch_overflow cfg e i (st : State X) :
  overflow X cfg st (trainloader X e i) = true ->
  train_batch X cfg e i st =
  ({| model :=
        {| params := params (model st);
           buffers := forward_buffers X (bn_frozen (model st))
                        (params (model st)) (buffers (model st))
                        (trainloader X e i);
           training := training (model st);
           bn_frozen := bn_frozen (model st) |};
      optimizer := snd (scheduler_step X (scheduler st) (optimizer st));
      scheduler := fst (scheduler_step X (scheduler st) (optimizer st));
      scaler := if amp_enabled cfg then scaler_update X true (scaler st)
                else scaler st;
      prev_miou := prev_miou st;
      prev_val_loss := prev_val_loss st;
      polls := polls st |},
   [EvBatch e i;
    EvScalerStep (len_trainloader X * e + i) false;
    EvAddScalar LossTraining
      (loss_item X (params (model st)) (buffers (model st))
         (trainloader X e i))
      (len_trainloader X * e + i);
    EvAddScalar LearningRate (lr_of X (optimizer st))
      (len_trainloader X * e + i);
    EvSchedulerStep (len_trainloader X * e + i)]).
Proof.
  intros H. unfold train_batch. rewrite H.
  destruct (scheduler_step X (scheduler st) (optimizer st)) as [s2 o2].
  reflexivity.
Qed.

Lemma train_batch_stepped cfg e i (st : State X) :
  overflow X cfg st (trainloader X e i) = false ->
  params (model (fst (train_batch X cfg e i st))) =
  fst (optimizer_step X (trainloader X e i) (params (model st))
         (buffers (model st)) (optimizer st)) /\
  optimizer_iters (snd (train_batch X cfg e i st)) =
  [len_trainloader X * e + i].
Proof.
  intros H. unfold train_batch. rewrite H.
  destruct (optimizer_step X _ _ _ _) as [p1 o1].
  destruct (scheduler_step X (scheduler st) o1) as [s2 o2].
  split; reflexivity.
Qed.

(** ** C1 *)

(** C1 (as the code has it).  With the scaler enabled, on a batch whose
    gradients the scaler finds to overflow, [optimizer.step()] is not run
    and the model's parameters are what they were; the scaler is updated
    with the overflow; the learning-rate scheduler is stepped all the same,
    once, at the batch's iteration number, since [scheduler.step()] is
    called on every batch.  The loop then goes on with the remaining
    batches of the epoch, and a next batch that does not overflow gets its
    optimizer step. *)
Theorem C1_overflow_skips_optimizer_not_scheduler cfg e i j rest
  (st : State X) :
  amp_enabled cfg = true ->
  found_inf X (scaler st) (params (model st)) (buffers (model st))
    (trainloader X e i) = true ->
  let st1 := fst (train_batch X cfg e i st) in
  let ev1 := snd (train_batch X cfg e i st) in
  params (model st1) = params (model st) /\
  optimizer_iters ev1 = [] /\
  skipped_iters ev1 = [len_trainloader X * e + i] /\
  scaler st1 = scaler_update X true (scaler st) /\
  scheduler st1 = fst (scheduler_step X (scheduler st) (optimizer st)) /\
  optimizer st1 = snd (scheduler_step X (scheduler st) (optimizer st)) /\
  sched_iters ev1 = [len_trainloader X * e + i] /\
  batches (snd (train_batches X cfg e (i :: j :: rest) st)) =
    (e, i) :: (e, j) :: map (pair e) rest /\
  train_batches X cfg e (i :: j :: rest) st =
    (fst (train_batches X cfg e (j :: rest) st1),
     ev1 ++ snd (train_batches X cfg e (j :: rest) st1)) /\
  (overflow X cfg st1 (trainloader X e j) = false ->
   params (model (fst (train_batch X cfg e j st1))) =
   fst (optimizer_step X (trainloader X e j) (params (model st1))
          (buffers (model st1)) (optimizer st1)) /\
   optimizer_iters (snd (train_batch X cfg e j st1)) =
   [len_trainloader X * e + j]).
Proof.
  intros Hamp Hinf st1 ev1.
  assert (Hov : overflow X cfg st (trainloader X e i) = true)
    by (unfold overflow; now rewrite Hamp, Hinf).
  unfold st1, ev1. rewrite (train_batch_overflow cfg e i st Hov).
  cbn [fst snd model params optimizer scheduler scaler]. rewrite Hamp.
  repeat split.
  - apply train_batches_batches.
  - rewrite train_batches_cons.
    now rewrite (train_batch_overflow cfg e i st Hov), Hamp.
  - now apply train_batch_stepped.
  - now apply train_batch_stepped.
Qed.

(** ** The teardown *)

Lemma loop_pick_none {B : Type} (f : event X -> option B) cfg rank epochs
  (st : State X) :
  (forall e a, f (EvPoll e a) = None) ->
  (forall ev, epoch_event ev = true -> f ev = None) ->
  pick f (snd (fst (epoch_loop X cfg rank epochs st))) = [].
Proof.
  intros Hpoll Hep.
  pose proof (loop_pick f (fun _ => []) cfg rank epochs st Hpoll) as H.
  destruct (epoch_loop X cfg rank epochs st) as [[st' ev] out].
  cbn [fst snd]. rewrite H.
  - clear H. induction (entered ev) as [|a l IH]; [reflexivity|exact IH].
  - intros e st0. now apply run_epoch_pick_none.
Qed.

(** ** C2 *)

(** C2.  Once the epoch loop has ended, by exhaustion or by the interrupt,
    the script closes the writer and calls
    [torch.distributed.destroy_process_group()], once, as its last action.
    Under DDP the group was initialised and the call succeeds.  Without DDP
    [init_process_group] was never called, the call is made all the same,
    and it raises: the script ends with an exception. *)
Theorem C2_teardown_once_but_unguarded cfg out :
  run_outcome (main X cfg) = Some out ->
  teardowns (run_events (main X cfg)) = [tt] /\
  (exists ev, run_events (main X cfg) = ev ++ [EvDestroyProcessGroup]) /\
  process_group_inits (run_events (main X cfg)) =
    (if ddp cfg then [tt] else []) /\
  run_error (main X cfg) =
    (if ddp cfg then None else Some NoProcessGroup).
Proof.
  unfold main, init_distributed.
  assert (Hevs : forall (ev0 ev1 ev2 : list (event X)),
             ev0 ++ ev1 ++ ev2 ++ [EvWriterClose; EvDestroyProcessGroup]
             = (ev0 ++ ev1 ++ ev2 ++ [EvWriterClose])
               ++ [EvDestroyProcessGroup]).
  { intros. now rewrite <- !app_assoc. }
  assert (Hres : forall ev1 r,
             resume X cfg (built X cfg) = (ev1, r) ->
             teardowns ev1 = [] /\ process_group_inits ev1 = []).
  { unfold resume. intros ev1 r.
    destruct (resume_training cfg) as [path|].
    - destruct (torch_load X path); intros [= <- _];
        destruct (ddp cfg); split; reflexivity.
    - intros [= <- _]. split; reflexivity. }
  destruct (ddp cfg).
  - destruct (is_nccl_available X); [|discriminate].
    destruct (is_initialized X); [|discriminate].
    destruct (resume X cfg (built X cfg)) as [ev1 [err|[st0 start]]] eqn:Er;
      [discriminate|].
    destruct (Hres _ _ eq_refl) as [Ht Hi].
    pose proof (loop_pick_none
      (fun ev => match ev with EvDestroyProcessGroup => Some tt | _ => None end)
      cfg (get_rank X) (epoch_range cfg start) st0) as Lt.
    pose proof (loop_pick_none
      (fun ev => match ev with EvInitProcessGroup => Some tt | _ => None end)
      cfg (get_rank X) (epoch_range cfg start) st0) as Li.
    destruct (epoch_loop X cfg (get_rank X) _ st0) as [[st ev2] o].
    cbn [fst snd] in Lt, Li. intros _. cbn [run_events run_error].
    unfold teardowns, process_group_inits in *.
    rewrite !pick_app, Ht, Hi, Lt, Li;
      try (intros [] H; try reflexivity; discriminate);
      try reflexivity.
    repeat split. eexists. apply (Hevs [EvInitProcessGroup] ev1 ev2).
  - destruct (resume X cfg (built X cfg)) as [ev1 [err|[st0 start]]] eqn:Er;
      [discriminate|].
    destruct (Hres _ _ eq_refl) as [Ht Hi].
    pose proof (loop_pick_none
      (fun ev => match ev with EvDestroyProcessGroup => Some tt | _ => None end)
      cfg 0 (epoch_range cfg start) st0) as Lt.
    pose proof (loop_pick_none
      (fun ev => match ev with EvInitProcessGroup => Some tt | _ => None end)
      cfg 0 (epoch_range cfg start) st0) as Li.
    destruct (epoch_loop X cfg 0 _ st0) as [[st ev2] o].
    cbn [fst snd] in Lt, Li. intros _. cbn [run_events run_error].
    unfold teardowns, process_group_inits in *.
    rewrite !pick_app, Ht, Hi, Lt, Li;
      try (intros [] H; try reflexivity; discriminate);
      try reflexivity.
    repeat split. eexists. apply (Hevs [] ev1 ev2).
Qed.

End Properties.

(** * The properties at work on the counter instances *)

(** The claim C1 as the specification words it fails on the first batch of
    [overflow_X]: the gradients overflow, and the scheduler has moved. *)
Lemma C1_schedule_advances_on_overflow :
  ~ (overflow overflow_X (amp_cfg 1) (built overflow_X (amp_cfg 1))
       (trainloader overflow_X 0 0) = true ->
     params (model (fst (train_batch overflow_X (amp_cfg 1) 0 0
                           (built overflow_X (amp_cfg 1)))))
     = params (model (built overflow_X (amp_cfg 1))) /\
     scheduler (fst (train_batch overflow_X (amp_cfg 1) 0 0
                       (built overflow_X (amp_cfg 1))))
     = scheduler (built overflow_X (amp_cfg 1)) /\
     sched_iters (snd (train_batch overflow_X (amp_cfg 1) 0 0
                         (built overflow_X (amp_cfg 1)))) = []).
Proof.
  intros H. destruct (H eq_refl) as (_ & Hs & _).
  vm_compute in Hs. discriminate Hs.
Qed.

Lemma C1_overflow_witness :
  amp_enabled (amp_cfg 1) = true /\
  found_inf overflow_X (scaler (built overflow_X (amp_cfg 1)))
    (params (model (built overflow_X (amp_cfg 1))))
    (buffers (model (built overflow_X (amp_cfg 1))))
    (trainloader overflow_X 0 0) = true /\
  params (model (fst (train_batch overflow_X (amp_cfg 1) 0 0
                        (built overflow_X (amp_cfg 1))))) = 0 /\
  scheduler (fst (train_batch overflow_X (amp_cfg 1) 0 0
                    (built overflow_X (amp_cfg 1)))) = 1.
Proof.
  split; [reflexivity|]. split; [reflexivity|].
  destruct (C1_overflow_skips_optimizer_not_scheduler overflow_X (amp_cfg 1)
              0 0 1 [] (built overflow_X (amp_cfg 1)) eq_refl eq_refl)
    as (Hp & _ & _ & _ & Hs & _).
  split; [exact Hp|exact Hs].
Defined.

Lemma C2_teardown_witness :
  run_outcome (main overflow_X (fresh_cfg 1)) = Some Completed /\
  teardowns (run_events (main overflow_X (fresh_cfg 1))) = [tt] /\
  run_error (main overflow_X (fresh_cfg 1)) = Some NoProcessGroup.
Proof.
  split; [reflexivity|].
  destruct (C2_teardown_once_but_unguarded overflow_X (fresh_cfg 1)
              Completed eq_refl) as (Ht & _ & _ & He).
  split; [exact Ht|exact He].
Defined.

Lemma C5_resume_witness :
  In saved_ck
    (saved_checkpoints
       (snd (run_epoch resumed_X (fresh_cfg 5) 0 0
               (built resumed_X (fresh_cfg 5))))) /\
  resume_training (resume_cfg false 5)
  = Some "weights/UNet_checkpoint.pth"%string /\
  torch_load resumed_X "weights/UNet_checkpoint.pth"%string = Some saved_ck /\
  epoch saved_ck = 0 /\
  exists st1 evs,
    resume resumed_X (resume_cfg false 5) (built resumed_X (resume_cfg false 5))
    = (evs, inr (st1, 0 + 1)).
Proof.
  assert (Hin : In saved_ck
            (saved_checkpoints
               (snd (run_epoch resumed_X (fresh_cfg 5) 0 0
                       (built resumed_X (fresh_cfg 5))))))
    by (left; reflexivity).
  split; [exact Hin|]. split; [reflexivity|]. split; [reflexivity|].
  destruct (C5_checkpoint_epoch_and_resume resumed_X (fresh_cfg 5)
              (resume_cfg false 5) "weights/UNet_checkpoint.pth"%string
              0 0 saved_ck (built resumed_X (fresh_cfg 5))
              (built resumed_X (resume_cfg false 5)) Hin eq_refl eq_refl)
    as (_ & He & st1 & evs & Hr & _).
  split; [exact He|]. exists st1, evs. exact Hr.
Defined.

Lemma C6_fine_tune_witness :
  resume_training (resume_cfg true 5)
  = Some "weights/UNet_checkpoint.pth"%string /\
  fine_tuning_batchnorm (resume_cfg true 5) = true /\
  torch_load resumed_X "weights/UNet_checkpoint.pth"%string = Some saved_ck /\
  exists st evs,
    resume resumed_X (resume_cfg true 5) (built resumed_X (resume_cfg true 5))
    = (evs, inr (st, epoch saved_ck + 1)) /\
    state_dict (model st) = model_state_dict saved_ck /\
    bn_frozen (model st) = true /\
    optimizer st = build_optimizer resumed_X /\
    scheduler st = build_scheduler resumed_X /\
    scaler st = new_scaler resumed_X.
Proof.
  split; [reflexivity|]. split; [reflexivity|]. split; [reflexivity|].
  exact (C6_fine_tune_resume resumed_X (resume_cfg true 5)
           "weights/UNet_checkpoint.pth"%string saved_ck
           eq_refl eq_refl eq_refl).
Defined.

Lemma C7_interrupt_witness :
  0 <= 2 < 0 + 5 /\
  (forall j, j < 2 - 0 ->
     train_interupter stopped_X (polls (built stopped_X (fresh_cfg 5)) + j)
     = false) /\
  train_interupter stopped_X (polls (built stopped_X (fresh_cfg 5)) + (2 - 0))
  = true /\
  snd (epoch_loop stopped_X (fresh_cfg 5) 0 (seq 0 5)
         (built stopped_X (fresh_cfg 5))) = Stopped 2 /\
  checkpoint_epochs
    (snd (fst (epoch_loop stopped_X (fresh_cfg 5) 0 (seq 0 5)
                 (built stopped_X (fresh_cfg 5))))) = [0; 1].
Proof.
  assert (Hk : 0 <= 2 < 0 + 5) by lia.
  assert (Hgo : forall j, j < 2 - 0 ->
            train_interupter stopped_X
              (polls (built stopped_X (fresh_cfg 5)) + j) = false).
  { intros j Hj. destruct j as [|[|j]]; [reflexivity|reflexivity|].
    exfalso. simpl in Hj. lia. }
  split; [exact Hk|]. split; [exact Hgo|]. split; [reflexivity|].
  pose proof (C7_interrupt_at_epoch_boundary stopped_X (fresh_cfg 5) 0 0 5 2
                (built stopped_X (fresh_cfg 5)) Hk Hgo eq_refl) as H.
  destruct (epoch_loop stopped_X (fresh_cfg 5) 0 (seq 0 5)
              (built stopped_X (fresh_cfg 5))) as [[st' ev] out].
  destruct H as (Hout & _ & _ & _ & _ & _ & _ & Hck & _).
  split; [exact Hout|exact Hck].
Defined.

Lemma C10_fresh_witness :
  resume_training (fresh_cfg 3) = None /\
  (forall e p b, (100 <= fst (evaluate high_loss_X e p b))%Q) /\
  prev_val_loss (built high_loss_X (fresh_cfg 3)) = 100%Q /\
  best_val_loss_saves (run_events (main high_loss_X (fresh_cfg 3))) = [].
Proof.
  assert (Hall : forall e p b, (100 <= fst (evaluate high_loss_X e p b))%Q).
  { intros e p b. cbn. unfold Qle. cbn. lia. }
  split; [reflexivity|]. split; [exact Hall|].
  destruct (C10_fresh_loss_bound high_loss_X (fresh_cfg 3)
              (built high_loss_X (fresh_cfg 3)) eq_refl)
    as (_ & _ & Hv & _ & Hn).
  split; [exact Hv|exact (Hn Hall)].
Defined.

(** * Further properties of the script *)

Lemma flat_map_singleton {A : Type} (l : list A) :
  flat_map (fun a => [a]) l = l.
Proof. induction l as [|a l IH]; simpl; congruence. Qed.

Lemma flat_map_filter {A : Type} (p : A -> bool) (l : list A) :
  flat_map (fun a => if p a then [a] else []) l = filter p l.
Proof.
  induction l as [|a l IH]; simpl; [reflexivity|].
  rewrite IH. now destruct (p a).
Qed.

Lemma filter_zero_seq (n : nat) : forall s,
  0 < s -> filter (fun e => e =? 0) (seq s n) = [].
Proof.
  induction n as [|n IH]; intros s Hs; [reflexivity|].
  cbn [seq filter]. destruct (Nat.eqb_spec s 0); [lia|]. apply IH. lia.
Qed.

Section MoreProperties.

Context (X : Externals).

(** ** The events after the batches of an epoch *)

Lemma save_phase_writes_only rank e loss metric (st : State X) :
  Forall (fun ev => is_write ev = true)
    (snd (save_phase X rank e loss metric st)).
Proof.
  destruct (Nat.eq_dec rank 0) as [->|H].
  - rewrite save_phase_writer. cbn [snd].
    destruct (Qltb _ _), (Qltb _ _); repeat constructor.
  - rewrite save_phase_other by assumption. constructor.
Qed.

(** A reader that ignores the batches, the [set_epoch] call and the writes
    reads an epoch's evaluation entries only. *)
Lemma run_epoch_pick_eval {B : Type} (f : event X -> option B) cfg rank e
  (st : State X) :
  (forall ev, batch_event ev = true -> f ev = None) ->
  (forall ev, is_write ev = true -> f ev = None) ->
  f (EvSetEpoch e) = None ->
  pick f (snd (run_epoch X cfg rank e st)) =
  pick f (eval_events X e (fst (epoch_scores X cfg e st))
            (snd (epoch_scores X cfg e st))).
Proof.
  intros Hb Hw Hs. rewrite run_epoch_pick_tail by assumption.
  cbn [pick]. rewrite Hs, pick_app.
  rewrite (pick_none f (snd (save_phase _ _ _ _ _ _))); [apply app_nil_r|].
  eapply Forall_impl; [|apply save_phase_writes_only]. exact Hw.
Qed.

Lemma run_epoch_image_steps cfg rank e tag (st : State X) :
  image_steps tag (snd (run_epoch X cfg rank e st)) =
  match tag with
  | Groundtruth => if e =? 0 then [e] else []
  | Prediction => [e]
  end.
Proof.
  unfold image_steps. rewrite run_epoch_pick_eval;
    try (intros [] H; try reflexivity; try discriminate;
         destruct tag0; reflexivity || discriminate);
    try reflexivity.
  unfold eval_events. destruct (e =? 0), tag; reflexivity.
Qed.

Lemma run_epoch_eval_steps cfg rank e tag (st : State X) :
  tag = LossValidation \/ tag = MetricsMIoU ->
  scalar_steps tag (snd (run_epoch X cfg rank e st)) = [e].
Proof.
  intros Htag. unfold scalar_steps. rewrite run_epoch_pick_eval.
  - unfold eval_events.
    destruct Htag as [-> | ->]; destruct (e =? 0); reflexivity.
  - intros [] H; try reflexivity; try discriminate.
    destruct Htag as [-> | ->]; destruct tag0;
      reflexivity || discriminate.
  - intros [] H; try reflexivity; discriminate.
  - reflexivity.
Qed.

Lemma run_epoch_eval_values cfg rank e (st : State X) :
  scalar_values LossValidation (snd (run_epoch X cfg rank e st))
  = [fst (epoch_scores X cfg e st)] /\
  scalar_values MetricsMIoU (snd (run_epoch X cfg rank e st))
  = [snd (epoch_scores X cfg e st)].
Proof.
  unfold scalar_values. split; rewrite run_epoch_pick_eval;
    try (unfold eval_events; destruct (e =? 0); reflexivity);
    try (intros [] H; try reflexivity; try discriminate;
         destruct tag; reflexivity || discriminate);
    reflexivity.
Qed.

Lemma run_epoch_evaluations cfg rank e (st : State X) :
  evaluations (snd (run_epoch X cfg rank e st)) = [e].
Proof.
  unfold evaluations. rewrite run_epoch_pick_eval;
    try (intros [] H; try reflexivity; discriminate); try reflexivity.
  unfold eval_events. destruct (e =? 0); reflexivity.
Qed.

(** ** What is logged once per epoch *)

(** X4.  The prediction images are logged for every epoch that is entered, at
    the epoch's number, the ground-truth images only for epoch 0: a loop
    over [range(start, start + n)] logs them once if [start = 0] and epoch 0
    is entered, and never if [start > 0], as in every resumed run. *)
Theorem images_logged_per_epoch cfg rank start n (st : State X) :
  let '(_, ev, _) := epoch_loop X cfg rank (seq start n) st in
  image_steps Prediction ev = entered ev /\
  image_steps Groundtruth ev =
    (if start =? 0 then firstn 1 (entered ev) else []).
Proof.
  pose proof (loop_pick X _ (fun e => [e]) cfg rank (seq start n) st
                (fun e a => eq_refl)
                (fun e st0 => run_epoch_image_steps cfg rank e Prediction st0))
    as Hp.
  pose proof (loop_pick X _ (fun e => if e =? 0 then [e] else [])
                cfg rank (seq start n) st (fun e a => eq_refl)
                (fun e st0 => run_epoch_image_steps cfg rank e Groundtruth st0))
    as Hg.
  pose proof (loop_entered_seq X cfg rank start n st) as He.
  destruct (epoch_loop X cfg rank (seq start n) st) as [[st' ev] out].
  destruct He as [He _]. split.
  - unfold image_steps. rewrite Hp. apply flat_map_singleton.
  - unfold image_steps. rewrite Hg, flat_map_filter, He.
    destruct (Nat.eqb_spec start 0) as [->|Hs].
    + destruct (List.length (entered ev)) as [|m]; [reflexivity|].
      cbn [seq filter Nat.eqb firstn]. f_equal.
      apply filter_zero_seq. lia.
    + apply filter_zero_seq. lia.
Qed.

(** X5.  The evaluation is run once for every epoch that is entered, and its
    two scores are logged once each, at the epoch's number (where the
    training loss and the learning rate are logged at iteration numbers). *)
Theorem evaluation_logged_per_epoch cfg rank epochs (st : State X) :
  let '(_, ev, _) := epoch_loop X cfg rank epochs st in
  evaluations ev = entered ev /\
  scalar_steps LossValidation ev = entered ev /\
  scalar_steps MetricsMIoU ev = entered ev /\
  List.length (scalar_values LossValidation ev) = List.length (entered ev) /\
  List.length (scalar_values MetricsMIoU ev) = List.length (entered ev).
Proof.
  pose proof (loop_pick X _ (fun e => [e]) cfg rank epochs st
                (fun e a => eq_refl)
                (fun e st0 => run_epoch_evaluations cfg rank e st0)) as H1.
  pose proof (loop_pick X _ (fun e => [e]) cfg rank epochs st
                (fun e a => eq_refl)
                (fun e st0 => run_epoch_eval_steps cfg rank e LossValidation
                                st0 (or_introl eq_refl))) as H2.
  pose proof (loop_pick X _ (fun e => [e]) cfg rank epochs st
                (fun e a => eq_refl)
                (fun e st0 => run_epoch_eval_steps cfg rank e MetricsMIoU
                                st0 (or_intror eq_refl))) as H3.
  assert (H4 : forall tag, tag = LossValidation \/ tag = MetricsMIoU ->
             forall epochs (st : State X),
               let '(_, ev, _) := epoch_loop X cfg rank epochs st in
               List.length (scalar_values tag ev) = List.length (entered ev)).
  { intros tag Htag. apply (epoch_loop_induction X cfg rank
      (fun epochs st r =>
         let '(_, ev, _) := r in
         List.length (scalar_values tag ev) = List.length (entered ev))).
    - reflexivity.
    - reflexivity.
    - intros e rest st0 st2 ev2 out _ _ IH.
      unfold scalar_values, entered in *. cbn [pick]. rewrite !pick_app.
      rewrite (run_epoch_pick_none X
                 (fun ev => match ev with EvPoll e false => Some e | _ => None end))
        by (intros [] H; try reflexivity; discriminate).
      cbn [app List.length]. rewrite length_app, IH.
      destruct (run_epoch_eval_values cfg rank e (polled X st0)) as [Hl Hm].
      unfold scalar_values in Hl, Hm.
      destruct Htag as [-> | ->]; [rewrite Hl|rewrite Hm]; reflexivity. }
  pose proof (H4 LossValidation (or_introl eq_refl) epochs st) as H5.
  pose proof (H4 MetricsMIoU (or_intror eq_refl) epochs st) as H6.
  destruct (epoch_loop X cfg rank epochs st) as [[st' ev] out].
  unfold evaluations, scalar_steps in *.
  rewrite H1, H2, H3, !flat_map_singleton. auto.
Qed.

(** ** A run that is never interrupted *)

Lemma loop_complete cfg rank epochs : forall st : State X,
  (forall j, j < List.length epochs ->
             train_interupter X (polls st + j) = false) ->
  let '(st', ev, out) := epoch_loop X cfg rank epochs st in
  out = Completed /\ entered ev = epochs /\
  polls st' = polls st + List.length epochs.
Proof.
  induction epochs as [|e rest IH]; intros st Hgo.
  - cbn. auto.
  - rewrite epoch_loop_go
      by (rewrite <- (Nat.add_0_r (polls st)); apply Hgo; cbn; lia).
    set (st1 := fst (run_epoch X cfg rank e (polled X st))).
    assert (Hp : polls st1 = S (polls st))
      by (unfold st1; now rewrite run_epoch_polls).
    specialize (IH st1).
    destruct (epoch_loop X cfg rank rest st1) as [[st2 ev2] out].
    destruct IH as (Hout & Hent & Hpolls).
    { intros j Hj. rewrite Hp.
      replace (S (polls st) + j) with (polls st + S j) by lia.
      apply Hgo. cbn. lia. }
    cbn [fst snd]. repeat split.
    + exact Hout.
    + unfold entered in *. cbn [pick]. rewrite pick_app, Hent.
      rewrite run_epoch_pick_none; [reflexivity|].
      intros [] H; try reflexivity; discriminate.
    + rewrite Hpolls, Hp. cbn. lia.
Qed.

(** X6.  If the interrupt flag stays down for the [n] polls of a loop over
    [range(start, start + n)], the loop runs to completion: every epoch is
    polled once and entered, the scheduler is stepped
    [len(trainloader) * n] times at consecutive iteration numbers, and the
    writing process saves one checkpoint per epoch, the last being that of
    epoch [start + n - 1]. *)
Theorem uninterrupted_run_completes cfg rank start n (st : State X) :
  (forall j, j < n -> train_interupter X (polls st + j) = false) ->
  let '(st', ev, out) := epoch_loop X cfg rank (seq start n) st in
  out = Completed /\
  poll_log ev = map (fun e => (e, false)) (seq start n) /\
  polls st' = polls st + n /\
  sched_iters ev = seq (len_trainloader X * start) (len_trainloader X * n) /\
  List.length (batches ev) = len_trainloader X * n /\
  checkpoint_epochs ev = (if rank =? 0 then seq start n else []) /\
  (rank = 0 -> 0 < n -> last (checkpoint_epochs ev) 0 = start + n - 1).
Proof.
  intros Hgo.
  pose proof (loop_complete cfg rank (seq start n) st) as H.
  rewrite length_seq in H. specialize (H Hgo).
  pose proof (loop_poll_log X cfg rank (seq start n) st) as Hlog.
  pose proof (loop_sched_iters X cfg rank (seq start n) st) as Hs.
  pose proof (loop_batches X cfg rank (seq start n) st) as Hb.
  pose proof (loop_checkpoint_epochs X cfg rank (seq start n) st) as Hck.
  destruct (epoch_loop X cfg rank (seq start n) st) as [[st' ev] out].
  destruct H as (-> & Hent & Hpolls). rewrite Hent in *.
  repeat split; try assumption.
  - now rewrite Hlog, app_nil_r.
  - rewrite Hs. apply seq_blocks.
  - rewrite Hb. clear. generalize start.
    induction n as [|m IH]; intros s; [now rewrite Nat.mul_0_r|].
    cbn [seq flat_map]. rewrite length_app, IH, length_map, length_seq. lia.
  - intros -> Hn. rewrite Hck. cbn [Nat.eqb].
    assert (Hsplit : seq start n = seq start (n - 1) ++ [start + (n - 1)]).
    { replace n with ((n - 1) + 1) at 1 by lia. now rewrite seq_app. }
    rewrite Hsplit, last_last. lia.
Qed.

(** ** Nothing left to train *)

(** X7.  When the script resumes from a checkpoint whose epoch is already the
    last configured one (or later), and gets as far as the loop, the loop
    has no iteration: the interrupt flag is not polled, no batch is taken,
    nothing is evaluated or written, and the run counts as completed. *)
Theorem resume_past_last_epoch cfg path ck out :
  resume_training cfg = Some path ->
  torch_load X path = Some ck ->
  cfg_epoch cfg <= epoch ck + 1 ->
  run_outcome (main X cfg) = Some out ->
  out = Completed /\
  poll_log (run_events (main X cfg)) = [] /\
  batches (run_events (main X cfg)) = [] /\
  evaluations (run_events (main X cfg)) = [] /\
  writes (run_events (main X cfg)) = [] /\
  run_state (main X cfg) = Some (fst (restore X cfg ck (built X cfg))).
Proof.
  intros Hpath Hload Hlast.
  assert (Hr : restore X cfg ck (built X cfg)
               = (fst (restore X cfg ck (built X cfg)), epoch ck + 1))
    by reflexivity.
  unfold main, init_distributed, resume.
  rewrite Hpath, Hload. rewrite Hr.
  rewrite (epoch_range_empty cfg (epoch ck + 1) Hlast). cbn [epoch_loop].
  destruct (ddp cfg).
  - destruct (is_nccl_available X); [|discriminate].
    destruct (is_initialized X); [|discriminate].
    cbn. intros [= <-]. repeat split.
  - cbn. intros [= <-]. repeat split.
Qed.

(** ** A script that ends before the loop *)

(** X1.  When the script ends before reaching the epoch loop, it ended with an
    exception of the distributed set-up or of [torch.load]; it has polled
    nothing, trained nothing, written nothing and not closed the writer;
    and it has not called [destroy_process_group], also when the process
    group had been initialised (a failed [torch.load] under DDP). *)
Theorem early_exit_does_nothing cfg :
  run_outcome (main X cfg) = None ->
  (run_error (main X cfg) = Some NcclNotAvailable \/
   run_error (main X cfg) = Some DdpNotInitialized \/
   run_error (main X cfg) = Some LoadFailed) /\
  run_state (main X cfg) = None /\
  poll_log (run_events (main X cfg)) = [] /\
  batches (run_events (main X cfg)) = [] /\
  writes (run_events (main X cfg)) = [] /\
  writer_closes (run_events (main X cfg)) = [] /\
  teardowns (run_events (main X cfg)) = [] /\
  (run_error (main X cfg) = Some LoadFailed ->
   process_group_inits (run_events (main X cfg))
   = if ddp cfg then [tt] else []).
Proof.
  unfold main, init_distributed, resume.
  destruct (ddp cfg).
  - destruct (is_nccl_available X);
      [|intros _; cbn; repeat split; auto; discriminate].
    destruct (is_initialized X);
      [|intros _; cbn; repeat split; auto; discriminate].
    destruct (resume_training cfg) as [path|].
    + destruct (torch_load X path) as [ck|].
      * destruct (restore X cfg ck (built X cfg)) as [st0 start].
        destruct (epoch_loop X cfg (get_rank X) _ st0) as [[st ev] o].
        discriminate.
      * intros _. cbn. repeat split; auto.
    + destruct (epoch_loop X cfg (get_rank X) _ _) as [[st ev] o].
      discriminate.
  - destruct (resume_training cfg) as [path|].
    + destruct (torch_load X path) as [ck|].
      * destruct (restore X cfg ck (built X cfg)) as [st0 start].
        destruct (epoch_loop X cfg 0 _ st0) as [[st ev] o]. discriminate.
      * intros _. cbn. repeat split; auto.
    + destruct (epoch_loop X cfg 0 _ _) as [[st ev] o]. discriminate.
Qed.

(** ** The scaler's decisions *)

Lemma train_batch_scaler_step cfg e i (st : State X) :
  scaler_steps (snd (train_batch X cfg e i st)) =
  [(len_trainloader X * e + i,
    negb (overflow X cfg st (trainloader X e i)))].
Proof.
  destruct (train_batch_events X cfg e i st) as [lr ->]. reflexivity.
Qed.

Lemma train_batch_no_amp cfg e i (st : State X) :
  amp_enabled cfg = false ->
  overflow X cfg st (trainloader X e i) = false /\
  scaler (fst (train_batch X cfg e i st)) = scaler st.
Proof.
  intros H. unfold train_batch, overflow. rewrite H. cbn [andb].
  destruct (optimizer_step X _ _ _ _) as [p1 o1].
  destruct (scheduler_step X _ _) as [s2 o2]. auto.
Qed.

Lemma train_batches_no_amp cfg e idxs : forall st : State X,
  amp_enabled cfg = false ->
  scaler (fst (train_batches X cfg e idxs st)) = scaler st /\
  scaler_steps (snd (train_batches X cfg e idxs st)) =
  map (fun i => (len_trainloader X * e + i, true)) idxs.
Proof.
  induction idxs as [|i rest IH]; intros st H; [cbn; auto|].
  rewrite train_batches_cons. cbn [fst snd].
  destruct (train_batch_no_amp cfg e i st H) as [Hov Hsc].
  destruct (IH (fst (train_batch X cfg e i st)) H) as [-> Hsteps].
  split; [exact Hsc|].
  unfold scaler_steps in *. rewrite pick_app, Hsteps.
  pose proof (train_batch_scaler_step cfg e i st) as Hb.
  unfold scaler_steps in Hb. rewrite Hb, Hov. reflexivity.
Qed.

Lemma save_phase_scaler rank e loss metric (st : State X) :
  scaler (fst (save_phase X rank e loss metric st)) = scaler st.
Proof.
  destruct (Nat.eq_dec rank 0) as [->|H].
  - now rewrite save_phase_writer.
  - now rewrite save_phase_other.
Qed.

Lemma run_epoch_no_amp cfg rank e (st : State X) :
  amp_enabled cfg = false ->
  scaler (fst (run_epoch X cfg rank e st)) = scaler st /\
  scaler_steps (snd (run_epoch X cfg rank e st)) =
  map (fun it => (it, true)) (seq (len_trainloader X * e) (len_trainloader X)).
Proof.
  intros H. split.
  - rewrite run_epoch_eq. cbn [fst]. rewrite save_phase_scaler.
    unfold trained.
    now destruct (train_batches_no_amp cfg e (seq 0 (len_trainloader X))
                    (with_model X (train_mode X (model st)) st) H) as [-> _].
  - unfold scaler_steps. rewrite run_epoch_pick_batches
      by (intros [] Hb; try reflexivity; discriminate).
    destruct (train_batches_no_amp cfg e (seq 0 (len_trainloader X))
                (with_model X (train_mode X (model st)) st) H) as [_ Hs].
    unfold scaler_steps in Hs. rewrite Hs.
    rewrite <- (map_map (fun i => len_trainloader X * e + i)
                  (fun it => (it, true))).
    now rewrite map_add_seq, Nat.add_0_r.
Qed.

Lemma scaler_steps_split (evs : list (event X)) :
  optimizer_iters evs = map fst (filter snd (scaler_steps evs)) /\
  skipped_iters evs = map fst (filter (fun s => negb (snd s)) (scaler_steps evs)) /\
  scaler_iters evs = map fst (scaler_steps evs).
Proof.
  unfold optimizer_iters, skipped_iters, scaler_iters, scaler_steps.
  induction evs as [|ev evs (IH1 & IH2 & IH3)]; [cbn; auto|].
  destruct ev; cbn [pick]; auto.
  destruct stepped; cbn [filter snd fst map negb]; rewrite IH1, IH2, IH3; auto.
Qed.

(** X8.  With the scaler disabled ([amp_enabled] false) the overflow check is
    never consulted: along the whole loop every batch gets its
    [optimizer.step()], no step is skipped, and the scaler's state is what
    it was when the loop started. *)
Theorem amp_disabled_never_skips cfg rank epochs (st : State X) :
  amp_enabled cfg = false ->
  let '(st', ev, _) := epoch_loop X cfg rank epochs st in
  skipped_iters ev = [] /\
  optimizer_iters ev = sched_iters ev /\
  scaler st' = scaler st.
Proof.
  intros Hamp.
  pose proof (loop_pick X _
                (fun e => map (fun it => (it, true))
                            (seq (len_trainloader X * e) (len_trainloader X)))
                cfg rank epochs st (fun e a => eq_refl)
                (fun e st0 => proj2 (run_epoch_no_amp cfg rank e st0 Hamp)))
    as Hsteps.
  pose proof (loop_sched_iters X cfg rank epochs st) as Hs.
  assert (Hsc : let '(st', _, _) := epoch_loop X cfg rank epochs st in
                scaler st' = scaler st).
  { apply (epoch_loop_induction X cfg rank
      (fun epochs st r => let '(st', _, _) := r in scaler st' = scaler st)).
    - reflexivity.
    - reflexivity.
    - intros e rest st0 st2 ev2 out _ _ IH. rewrite IH.
      now destruct (run_epoch_no_amp cfg rank e (polled X st0) Hamp) as [-> _]. }
  destruct (epoch_loop X cfg rank epochs st) as [[st' ev] out].
  destruct (scaler_steps_split ev) as (-> & -> & _).
  fold (@scaler_steps X) in Hsteps. rewrite Hsteps, Hs.
  split; [|split; [|exact Hsc]]; clear;
    induction (entered ev) as [|a l IH]; try reflexivity;
    cbn [flat_map]; rewrite filter_app, map_app, IH.
  - replace (filter _ (map _ (seq _ _))) with (@nil (nat * bool));
      [reflexivity|].
    induction (seq (len_trainloader X * a) (len_trainloader X));
      [reflexivity|assumption].
  - f_equal.
    induction (seq (len_trainloader X * a) (len_trainloader X)) as [|b m IHm];
      [reflexivity|]. cbn. now rewrite IHm.
Qed.

Lemma run_epoch_scaler_iters cfg rank e (st : State X) :
  scaler_iters (snd (run_epoch X cfg rank e st)) =
  seq (len_trainloader X * e) (len_trainloader X).
Proof.
  unfold scaler_iters. rewrite run_epoch_pick_batches
    by (intros [] Hb; try reflexivity; discriminate).
  rewrite <- (Nat.add_0_r (len_trainloader X * e)).
  rewrite <- (map_add_seq (len_trainloader X * e) (len_trainloader X) 0).
  generalize (with_model X (train_mode X (model st)) st).
  induction (seq 0 (len_trainloader X)) as [|i rest IH]; intros st0;
    [reflexivity|].
  rewrite train_batches_cons. cbn [snd]. rewrite pick_app, IH.
  destruct (train_batch_events X cfg e i st0) as [lr ->]. reflexivity.
Qed.

(** X9.  Whatever the overflow check answers, [scaler.step(optimizer)] is called
    once per scheduler step, at the same iteration numbers in the same
    order, and each call either runs [optimizer.step()] or skips it: the
    scheduler is ahead of the optimizer by exactly the number of skipped
    steps. *)
Theorem scheduler_ahead_by_skipped_steps cfg rank epochs (st : State X) :
  let '(_, ev, _) := epoch_loop X cfg rank epochs st in
  map fst (scaler_steps ev) = sched_iters ev /\
  List.length (sched_iters ev) =
  List.length (optimizer_iters ev) + List.length (skipped_iters ev).
Proof.
  pose proof (loop_pick X _
                (fun e => seq (len_trainloader X * e) (len_trainloader X))
                cfg rank epochs st (fun e a => eq_refl)
                (fun e st0 => run_epoch_scaler_iters cfg rank e st0)) as Hi.
  pose proof (loop_sched_iters X cfg rank epochs st) as Hs.
  destruct (epoch_loop X cfg rank epochs st) as [[st' ev] out].
  destruct (scaler_steps_split ev) as (Ho & Hk & Hall).
  fold (@scaler_iters X) in Hi.
  assert (Heq : map fst (scaler_steps ev) = sched_iters ev)
    by now rewrite <- Hall, Hi, Hs.
  split; [exact Heq|].
  rewrite <- Heq, Ho, Hk, !length_map. clear.
  induction (scaler_steps ev) as [|[it b] l IH]; [reflexivity|].
  cbn [filter snd negb]. destruct b; cbn [negb List.length]; lia.
Qed.

(** ** The trackers are the running best *)

Lemma scalar_values_cons_app tag e (ev1 ev2 : list (event X)) :
  scalar_values tag (EvPoll e false :: ev1 ++ ev2) =
  scalar_values tag ev1 ++ scalar_values tag ev2.
Proof. unfold scalar_values. cbn [pick]. apply pick_app. Qed.

(** X10.  On the writing process, after any run of the loop, [prev_miou] is at
    least its starting value and at least every mIoU logged during the
    run, and it is one of these; [prev_val_loss] is at most its starting
    value and at most every validation loss logged, and is one of these.
    On the other processes the two trackers never move. *)
Theorem trackers_are_running_best cfg rank epochs (st : State X) :
  let '(st', ev, _) := epoch_loop X cfg rank epochs st in
  if rank =? 0 then
    (prev_miou st <= prev_miou st')%Q /\
    Forall (fun v => (v <= prev_miou st')%Q) (scalar_values MetricsMIoU ev) /\
    (prev_miou st' = prev_miou st \/
     In (prev_miou st') (scalar_values MetricsMIoU ev)) /\
    (prev_val_loss st' <= prev_val_loss st)%Q /\
    Forall (fun v => (prev_val_loss st' <= v)%Q)
      (scalar_values LossValidation ev) /\
    (prev_val_loss st' = prev_val_loss st \/
     In (prev_val_loss st') (scalar_values LossValidation ev))
  else
    prev_miou st' = prev_miou st /\ prev_val_loss st' = prev_val_loss st.
Proof.
  apply (epoch_loop_induction X cfg rank
    (fun epochs st r =>
       let '(st', ev, _) := r in
       if rank =? 0 then
         (prev_miou st <= prev_miou st')%Q /\
         Forall (fun v => (v <= prev_miou st')%Q)
           (scalar_values MetricsMIoU ev) /\
         (prev_miou st' = prev_miou st \/
          In (prev_miou st') (scalar_values MetricsMIoU ev)) /\
         (prev_val_loss st' <= prev_val_loss st)%Q /\
         Forall (fun v => (prev_val_loss st' <= v)%Q)
           (scalar_values LossValidation ev) /\
         (prev_val_loss st' = prev_val_loss st \/
          In (prev_val_loss st') (scalar_values LossValidation ev))
       else
         prev_miou st' = prev_miou st /\ prev_val_loss st' = prev_val_loss st)).
  - intros st0. destruct (rank =? 0); repeat split;
      try apply Qle_refl; try constructor; auto.
  - intros e rest st0 _. destruct (rank =? 0); repeat split;
      try apply Qle_refl; try constructor; auto.
  - intros e rest st0 st2 ev2 out _ _ IH.
    destruct (run_epoch_trackers X cfg rank e (polled X st0)) as [Hm Hl].
    destruct (run_epoch_eval_values cfg rank e (polled X st0)) as [Vl Vm].
    rewrite !scalar_values_cons_app, Vl, Vm.
    set (st1 := fst (run_epoch X cfg rank e (polled X st0))) in *.
    set (m := snd (epoch_scores X cfg e (polled X st0))) in *.
    set (l := fst (epoch_scores X cfg e (polled X st0))) in *.
    cbn [polled prev_miou prev_val_loss] in Hm, Hl.
    destruct (rank =? 0); cbn [andb] in Hm, Hl.
    + destruct IH as (Im & Fm & Om & Il & Fl & Ol).
      assert (Hm1 : (prev_miou st0 <= prev_miou st1)%Q /\
                    (m <= prev_miou st1)%Q /\
                    (prev_miou st1 = prev_miou st0 \/ prev_miou st1 = m)).
      { rewrite Hm. destruct (Qltb (prev_miou st0) m) eqn:E.
        - apply Qltb_lt in E. repeat split;
            [now apply Qlt_le_weak|apply Qle_refl|now right].
        - apply Qltb_ge in E. repeat split;
            [apply Qle_refl|exact E|now left]. }
      assert (Hl1 : (prev_val_loss st1 <= prev_val_loss st0)%Q /\
                    (prev_val_loss st1 <= l)%Q /\
                    (prev_val_loss st1 = prev_val_loss st0 \/
                     prev_val_loss st1 = l)).
      { rewrite Hl. destruct (Qltb l (prev_val_loss st0)) eqn:E.
        - apply Qltb_lt in E. repeat split;
            [now apply Qlt_le_weak|apply Qle_refl|now right].
        - apply Qltb_ge in E. repeat split;
            [apply Qle_refl|exact E|now left]. }
      destruct Hm1 as (A1 & A2 & A3). destruct Hl1 as (B1 & B2 & B3).
      repeat split.
      * eapply Qle_trans; eassumption.
      * constructor; [eapply Qle_trans; eassumption|exact Fm].
      * destruct Om as [Om|Om]; [|right; now right].
        rewrite Om. destruct A3 as [A3|A3]; [now left|].
        right. left. now rewrite A3.
      * eapply Qle_trans; eassumption.
      * constructor; [eapply Qle_trans; eassumption|exact Fl].
      * destruct Ol as [Ol|Ol]; [|right; now right].
        rewrite Ol. destruct B3 as [B3|B3]; [now left|].
        right. left. now rewrite B3.
    + destruct IH as [-> ->]. auto.
Qed.

(** ** What the files of an epoch hold *)

(** X11.  On the writing process the checkpoint record of an epoch holds the
    model, optimizer, scheduler and scaler as they are after the epoch's
    last batch, and the scores in the record are those the evaluation
    returned for exactly that state dict.  A best-model file written in
    the same epoch holds the same state dict as the record. *)
Theorem epoch_files_hold_trained_model cfg e (st : State X) :
  let ev := snd (run_epoch X cfg 0 e st) in
  let after := trained X cfg e st in
  exists ck,
    saved_checkpoints ev = [ck] /\
    model_state_dict ck = state_dict (model after) /\
    optimizer_state_dict ck = optimizer after /\
    scheduler_state_dict ck = scheduler after /\
    scaler_state_dict ck = scaler after /\
    (val_loss ck, miou ck) =
      evaluate X e (fst (model_state_dict ck)) (snd (model_state_dict ck)) /\
    (forall sd, In sd (best_miou_saves ev) -> sd = model_state_dict ck) /\
    (forall sd, In sd (best_val_loss_saves ev) -> sd = model_state_dict ck).
Proof.
  intros ev after. subst ev.
  rewrite run_epoch_best_miou_saves, run_epoch_best_val_loss_saves.
  unfold saved_checkpoints. rewrite run_epoch_pick_tail
    by (intros [] H; try reflexivity; discriminate).
  rewrite save_phase_writer. fold after.
  eexists. split.
  - unfold eval_events.
    destruct (e =? 0), (Qltb (prev_miou after) _),
      (Qltb _ (prev_val_loss after)); reflexivity.
  - cbn. repeat split.
    + unfold epoch_scores. fold after.
      now destruct (evaluate X e _ _).
    + intros sd. destruct (Qltb _ _); [intros [<-|[]]|intros []]. reflexivity.
    + intros sd. destruct (Qltb _ _); [intros [<-|[]]|intros []]. reflexivity.
Qed.

(** ** From a checkpoint back to a state *)

Lemma epoch_files_ck cfg e (st : State X) ck :
  In ck (saved_checkpoints (snd (run_epoch X cfg 0 e st))) ->
  ck = {| model_state_dict := state_dict (model (trained X cfg e st));
          optimizer_state_dict := optimizer (trained X cfg e st);
          scheduler_state_dict := scheduler (trained X cfg e st);
          scaler_state_dict := scaler (trained X cfg e st);
          epoch := e;
          miou := snd (epoch_scores X cfg e st);
          val_loss := fst (epoch_scores X cfg e st) |}.
Proof.
  intros Hin. unfold saved_checkpoints in Hin.
  rewrite run_epoch_pick_tail in Hin
    by (intros [] H; try reflexivity; discriminate).
  rewrite save_phase_writer in Hin. unfold eval_events in Hin.
  destruct (e =? 0), (Qltb _ _), (Qltb _ _); cbn in Hin;
    destruct Hin as [<-|[]]; reflexivity.
Qed.

(** X2.  Resuming without fine-tuning from the record an epoch wrote gives back
    the state dicts of the model, the optimizer, the scheduler and the
    scaler that the run had at the end of that epoch, and the loop goes on
    at the next epoch. *)
Theorem checkpoint_round_trip cfg cfg' e ck (st st0 : State X) :
  In ck (saved_checkpoints (snd (run_epoch X cfg 0 e st))) ->
  fine_tuning_batchnorm cfg' = false ->
  let st' := fst (run_epoch X cfg 0 e st) in
  let st1 := fst (restore X cfg' ck st0) in
  state_dict (model st1) = state_dict (model st') /\
  optimizer st1 = optimizer st' /\
  scheduler st1 = scheduler st' /\
  scaler st1 = scaler st' /\
  snd (restore X cfg' ck st0) = e + 1 /\
  training (model st1) = training (model st0) /\
  bn_frozen (model st1) = bn_frozen (model st0).
Proof.
  intros Hin Hft. cbn zeta.
  rewrite (epoch_files_ck cfg e st ck Hin).
  rewrite run_epoch_eq. cbn [fst]. rewrite save_phase_writer.
  unfold restore. rewrite Hft. cbn. repeat split; reflexivity.
Qed.

(** X3.  The record stores the scores of its own epoch, not the best so far, and
    resuming takes the trackers from the record.  So after a resume
    [prev_miou] is never above, and [prev_val_loss] never below, what the
    run held when it wrote the record; and when that epoch was strictly
    worse than the best before it, the resumed trackers are strictly worse
    than the ones the run held. *)
Theorem resume_forgets_best cfg cfg' e ck (st st0 : State X) :
  In ck (saved_checkpoints (snd (run_epoch X cfg 0 e st))) ->
  let st' := fst (run_epoch X cfg 0 e st) in
  let st1 := fst (restore X cfg' ck st0) in
  prev_miou st1 = snd (epoch_scores X cfg e st) /\
  prev_val_loss st1 = fst (epoch_scores X cfg e st) /\
  (prev_miou st1 <= prev_miou st')%Q /\
  (prev_val_loss st' <= prev_val_loss st1)%Q /\
  ((snd (epoch_scores X cfg e st) < prev_miou st)%Q ->
   (prev_miou st1 < prev_miou st')%Q) /\
  ((prev_val_loss st < fst (epoch_scores X cfg e st))%Q ->
   (prev_val_loss st' < prev_val_loss st1)%Q).
Proof.
  intros Hin. cbn zeta.
  destruct (run_epoch_trackers X cfg 0 e st) as [Hm Hl].
  cbn [Nat.eqb andb] in Hm, Hl. rewrite Hm, Hl.
  assert (Em : miou ck = snd (epoch_scores X cfg e st))
    by now rewrite (epoch_files_ck cfg e st ck Hin).
  assert (El : val_loss ck = fst (epoch_scores X cfg e st))
    by now rewrite (epoch_files_ck cfg e st ck Hin).
  assert (R1 : prev_miou (fst (restore X cfg' ck st0)) = miou ck)
    by (unfold restore; now destruct (fine_tuning_batchnorm cfg')).
  assert (R2 : prev_val_loss (fst (restore X cfg' ck st0)) = val_loss ck)
    by (unfold restore; now destruct (fine_tuning_batchnorm cfg')).
  rewrite R1, R2, Em, El.
  set (m := snd (epoch_scores X cfg e st)).
  set (l := fst (epoch_scores X cfg e st)).
  pose proof (Qltb_lt (prev_miou st) m) as A.
  pose proof (Qltb_ge (prev_miou st) m) as A'.
  pose proof (Qltb_lt l (prev_val_loss st)) as B.
  pose proof (Qltb_ge l (prev_val_loss st)) as B'.
  repeat split.
  - destruct (Qltb (prev_miou st) m); [apply Qle_refl|now apply A'].
  - destruct (Qltb l (prev_val_loss st)); [apply Qle_refl|now apply B'].
  - intros H. destruct (Qltb (prev_miou st) m); [|exact H].
    exfalso. apply (Qlt_irrefl m).
    eapply Qlt_trans; [exact H|now apply A].
  - intros H. destruct (Qltb l (prev_val_loss st)); [|exact H].
    exfalso. apply (Qlt_irrefl l).
    eapply Qlt_trans; [|exact H]. now apply B.
Qed.

End MoreProperties.

(** * Properties of the demo script *)

Lemma demo_split_cons sep s : exists p ps, Demo.split sep s = p :: ps.
Proof.
  destruct s as [|c r]; cbn; [eauto|].
  destruct (Ascii.eqb c sep); [eauto|].
  destruct (Demo.split sep r); eauto.
Qed.

Lemma demo_split_pieces c sep s :
  Demo.occurs c s = false ->
  Forall (fun p => Demo.occurs c p = false) (Demo.split sep s).
Proof.
  induction s as [|d r IH]; cbn; intros H; [repeat constructor|].
  apply orb_false_iff in H. destruct H as [Hd Hr]. specialize (IH Hr).
  destruct (Ascii.eqb d sep).
  - constructor; [reflexivity|exact IH].
  - destruct (Demo.split sep r) as [|p ps].
    + repeat constructor. cbn. now rewrite Hd.
    + inversion IH; subst. constructor; [|assumption].
      cbn. now rewrite Hd.
Qed.

Lemma demo_split_no_sep sep s :
  Forall (fun p => Demo.occurs sep p = false) (Demo.split sep s).
Proof.
  induction s as [|d r IH]; cbn; [repeat constructor|].
  destruct (Ascii.eqb d sep) eqn:E.
  - constructor; [reflexivity|exact IH].
  - destruct (Demo.split sep r) as [|p ps].
    + repeat constructor. cbn. now rewrite E.
    + inversion IH; subst. constructor; [|assumption].
      cbn. now rewrite E.
Qed.

Lemma demo_last_item_in {A : Type} (l : list A) a :
  Demo.last_item l = Some a -> In a l.
Proof.
  induction l as [|b [|c l] IH]; cbn; intros H; [discriminate| |].
  - injection H as ->. now left.
  - right. now apply IH.
Qed.

Lemma demo_last_item_cons {A : Type} (b : A) (l : list A) :
  exists a, Demo.last_item (b :: l) = Some a.
Proof.
  revert b. induction l as [|c l IH]; intros b; cbn; [eauto|]. apply IH.
Qed.

Lemma demo_replace_removes old new s :
  old <> new -> Demo.occurs old (Demo.replace old new s) = false.
Proof.
  intros Hne. induction s as [|c r IH]; cbn; [reflexivity|].
  rewrite IH, orb_false_r. destruct (Ascii.eqb_spec c old) as [->|Hc].
  - apply Ascii.eqb_neq. congruence.
  - now apply Ascii.eqb_neq.
Qed.

Lemma demo_replace_id old new s :
  Demo.occurs old s = false -> Demo.replace old new s = s.
Proof.
  induction s as [|c r IH]; cbn; [reflexivity|]. intros H.
  apply orb_false_iff in H. destruct H as [Hc Hr].
  now rewrite Hc, IH.
Qed.

Lemma demo_replace_app old new a b :
  Demo.replace old new (a ++ b) =
  (Demo.replace old new a ++ Demo.replace old new b)%string.
Proof. induction a as [|c r IH]; cbn; [reflexivity|]. now rewrite IH. Qed.

Lemma demo_split_id sep s :
  Demo.occurs sep s = false -> Demo.split sep s = [s].
Proof.
  induction s as [|c r IH]; cbn; [reflexivity|]. intros H.
  apply orb_false_iff in H. destruct H as [Hc Hr].
  now rewrite Hc, IH.
Qed.

Lemma demo_split_app sep a b :
  Demo.split sep (a ++ String sep b) = Demo.split sep a ++ Demo.split sep b.
Proof.
  induction a as [|c r IH]; cbn [String.append Demo.split].
  - now rewrite Ascii.eqb_refl.
  - rewrite IH. destruct (Ascii.eqb c sep); [reflexivity|].
    now destruct (demo_split_cons sep r) as (p & ps & ->).
Qed.

Lemma demo_last_item_app {A : Type} (l1 : list A) b l2 :
  Demo.last_item (l1 ++ b :: l2) = Demo.last_item (b :: l2).
Proof.
  induction l1 as [|a l1 IH]; [reflexivity|].
  cbn [app]. rewrite <- IH. cbn. now destruct (l1 ++ b :: l2) eqn:E;
    [destruct l1; discriminate|].
Qed.

Lemma demo_last_piece sep a b :
  Demo.last_item (Demo.split sep (a ++ String sep b)) =
  Demo.last_item (Demo.split sep b).
Proof.
  rewrite demo_split_app.
  destruct (demo_split_cons sep b) as (p & ps & ->).
  apply demo_last_item_app.
Qed.

(** X12.  The name of an image never fails to be computed (the split of a string
    is never empty), and it holds neither a slash nor a backslash; so the
    list of names has one bare file name per image of the dataset. *)
Theorem demo_image_names_are_bare (images : list string) :
  exists names,
    Demo.image_names images = Some names /\
    List.length names = List.length images /\
    Forall (fun n => Demo.occurs Demo.slash n = false /\
                     Demo.occurs Demo.backslash n = false) names.
Proof.
  induction images as [|p rest (names & E & Hlen & Hall)].
  - exists []. repeat split. constructor.
  - cbn [Demo.image_names]. unfold Demo.image_name.
    set (q := Demo.replace Demo.backslash Demo.slash p).
    destruct (demo_split_cons Demo.slash q) as (a & l & Es).
    destruct (demo_last_item_cons a l) as [n En].
    rewrite Es, En, E. exists (n :: names). repeat split.
    + cbn. now rewrite Hlen.
    + constructor; [|exact Hall].
      apply demo_last_item_in in En. rewrite <- Es in En. split.
      * pose proof (demo_split_no_sep Demo.slash q) as H.
        rewrite Forall_forall in H. now apply H.
      * pose proof (demo_split_pieces Demo.backslash Demo.slash q) as H.
        rewrite Forall_forall in H. apply H; [|exact En].
        apply demo_replace_removes. discriminate.
Qed.

(** X13.  For a path made of a directory part, one separator (slash or
    backslash) and a file name without separators, the name computed is
    that file name, whatever separators the directory part mixes. *)
Theorem demo_image_name_of_path (dir name : string) (sep : ascii) :
  sep = Demo.slash \/ sep = Demo.backslash ->
  Demo.occurs Demo.slash name = false ->
  Demo.occurs Demo.backslash name = false ->
  Demo.image_name (dir ++ String sep name) = Some name /\
  Demo.image_name name = Some name.
Proof.
  intros Hsep Hs Hb. unfold Demo.image_name. split.
  - rewrite demo_replace_app. cbn [Demo.replace].
    replace (if Ascii.eqb sep Demo.backslash then Demo.slash else sep)
      with Demo.slash by (destruct Hsep as [-> | ->]; reflexivity).
    rewrite demo_last_piece, (demo_replace_id _ _ name Hb).
    now rewrite (demo_split_id _ name Hs).
  - rewrite (demo_replace_id _ _ name Hb).
    now rewrite (demo_split_id _ name Hs).
Qed.

(** X14.  The name of a name is the name itself. *)
Theorem demo_image_name_idempotent (path name : string) :
  Demo.image_name path = Some name ->
  Demo.image_name name = Some name.
Proof.
  unfold Demo.image_name. intros H.
  set (q := Demo.replace Demo.backslash Demo.slash path) in *.
  apply demo_last_item_in in H.
  assert (Hs : Demo.occurs Demo.slash name = false).
  { pose proof (demo_split_no_sep Demo.slash q) as F.
    rewrite Forall_forall in F. now apply F. }
  assert (Hb : Demo.occurs Demo.backslash name = false).
  { pose proof (demo_split_pieces Demo.backslash Demo.slash q) as F.
    rewrite Forall_forall in F. apply F; [|exact H].
    apply demo_replace_removes. discriminate. }
  rewrite (demo_replace_id _ _ name Hb).
  now rewrite (demo_split_id _ name Hs).
Qed.






(** * Properties of the network's shapes *)







Lemma conv_wrong_channels in_c out_c k s p d (x : Net.Shape) :
  Net.channels x <> in_c ->
  Net.Conv2d in_c out_c k s p d x = inl Net.ChannelMismatch.
Proof.
  intros H. unfold Net.Conv2d. apply Nat.eqb_neq in H. now rewrite H.
Qed.

Lemma conv_channels in_c out_c k s p d (x y : Net.Shape) :
  Net.Conv2d in_c out_c k s p d x = inr y ->
  Net.channels y = out_c /\ Net.batch y = Net.batch x.
Proof.
  unfold Net.Conv2d. destruct (Net.channels x =? in_c); [|discriminate].
  destruct (Net.window_out (Net.height x) k s p d); [discriminate|].
  destruct (Net.window_out (Net.width x) k s p d); [discriminate|].
  intros [= <-]. auto.
Qed.



Lemma batch_norm_single out_c (z : Net.Shape) :
  Net.batch z = 1 -> Net.height z = 1 -> Net.width z = 1 ->
  exists f, Net.BatchNorm2d out_c true z = inl f.
Proof.
  intros Hb Hh Hw. unfold Net.BatchNorm2d.
  destruct (Net.channels z =? out_c); [|eauto].
  rewrite Hb, Hh, Hw. cbn. eauto.
Qed.

Lemma bind_fails (r : Net.result) (k : Net.Shape -> Net.result) :
  (forall y, r = inr y -> exists f, k y = inl f) ->
  exists f, Net.bind r k = inl f.
Proof. destruct r as [e|y]; cbn; eauto. Qed.

(** X17.  In training mode [ASPP] fails on every batch of one image: the pooled
    branch hands a single value per channel to its batch norm. *)
Theorem aspp_single_image_training_fails in_c out_c (x : Net.Shape) :
  Net.batch x = 1 ->
  exists f, Net.ASPP_forward in_c out_c true x = inl f.
Proof.
  intros Hb. unfold Net.ASPP_forward. cbv beta zeta.
  do 4 (apply bind_fails; intros ? _).
  apply bind_fails. intros pooled Hp.
  unfold Net.adaptive_avg_pool_1 in Hp.
  destruct (_ && _); [|discriminate]. injection Hp as <-.
  apply bind_fails. intros out_img Hy. exfalso.
  destruct (Net.Conv2d in_c out_c 1 1 0 1 _) as [e|c] eqn:Ec;
    [discriminate|]. cbn [Net.bind] in Hy.
  unfold Net.Conv2d in Ec. cbn [Net.channels Net.height Net.width Net.batch]
    in Ec.
  destruct (Net.channels x =? in_c); [|discriminate].
  cbn in Ec. injection Ec as <-.
  destruct (batch_norm_single out_c (Net.MkShape (Net.batch x) out_c 1 1))
    as [f Hf]; try reflexivity; [exact Hb|].
  rewrite Hf in Hy. discriminate.
Qed.

(** ** [ResidualBlock] *)



(** ** [_make_layer] and [Proposed.forward] *)

Lemma residual_block_channels in_c out_c stride (x y : Net.Shape) :
  Net.ResidualBlock_forward in_c out_c stride x = inr y ->
  Net.channels y = out_c.
Proof.
  unfold Net.ResidualBlock_forward. cbv beta zeta.
  destruct (Net.Conv2d in_c out_c 3 stride 1 1 x) as [e|a]; [discriminate|].
  cbn [Net.bind Net.relu].
  destruct (Net.Conv2d out_c out_c 3 1 1 1 a) as [e|b] eqn:Eb;
    [discriminate|].
  cbn [Net.bind].
  destruct (if stride =? 2 then _ else _) as [e|i]; [discriminate|].
  cbn [Net.bind]. unfold Net.add_inplace.
  destruct (_ && _); [|discriminate]. cbn. intros [= <-].
  now apply conv_channels in Eb.
Qed.

Lemma residual_block_wrong_channels in_c out_c stride (x : Net.Shape) :
  Net.channels x <> in_c ->
  Net.ResidualBlock_forward in_c out_c stride x = inl Net.ChannelMismatch.
Proof.
  intros H. unfold Net.ResidualBlock_forward. cbv beta zeta.
  now rewrite conv_wrong_channels.
Qed.

Lemma conv_failure in_c out_c k s p d (x : Net.Shape) f :
  Net.Conv2d in_c out_c k s p d x = inl f ->
  forall name, f <> Net.NoAttribute name.
Proof.
  unfold Net.Conv2d. destruct (Net.channels x =? in_c).
  - destruct (Net.window_out (Net.height x) k s p d);
      [|destruct (Net.window_out (Net.width x) k s p d)];
      intros [= <-] name; discriminate.
  - intros [= <-] name; discriminate.
Qed.

Lemma residual_block_failure in_c out_c stride (x : Net.Shape) f :
  Net.ResidualBlock_forward in_c out_c stride x = inl f ->
  forall name, f <> Net.NoAttribute name.
Proof.
  unfold Net.ResidualBlock_forward. cbv beta zeta.
  destruct (Net.Conv2d in_c out_c 3 stride 1 1 x) as [e|a] eqn:Ea.
  { cbn [Net.bind]. intros [= <-]. eapply conv_failure. exact Ea. }
  cbn [Net.bind Net.relu].
  destruct (Net.Conv2d out_c out_c 3 1 1 1 a) as [e|b] eqn:Eb.
  { cbn [Net.bind]. intros [= <-]. eapply conv_failure. exact Eb. }
  cbn [Net.bind].
  destruct (if stride =? 2 then _ else _) as [e|i] eqn:Ei.
  { cbn [Net.bind]. intros [= <-].
    destruct (stride =? 2); [|discriminate].
    eapply conv_failure. exact Ei. }
  cbn [Net.bind]. unfold Net.add_inplace.
  destruct (_ && _); cbn; [discriminate|].
  intros [= <-] name. discriminate.
Qed.

Lemma make_layer_second_block in_c out_c num_blocks stride (x : Net.Shape) :
  2 <= num_blocks -> in_c <> out_c ->
  exists f,
    Net.make_layer in_c out_c num_blocks stride x = inl f /\
    forall name, f <> Net.NoAttribute name.
Proof.
  intros Hn Hne. unfold Net.make_layer, Net.make_layer_blocks.
  destruct num_blocks as [|[|n]]; try lia.
  cbn [Nat.sub repeat Net.Sequential].
  destruct (Net.ResidualBlock_forward in_c out_c stride x) as [e|y] eqn:E.
  - cbn [Net.bind]. exists e. split; [reflexivity|].
    eapply residual_block_failure. exact E.
  - cbn [Net.bind]. exists Net.ChannelMismatch.
    split; [|intros name; discriminate].
    rewrite residual_block_wrong_channels; [reflexivity|].
    rewrite (residual_block_channels _ _ _ _ _ E). congruence.
Qed.

(** X19.  A layer built by [_make_layer] with two blocks or more and
    [in_channels] different from [out_channels] fails on every input: its
    first block yields [out_channels] channels, and the blocks after it
    are built, like the first, for [in_channels] channels. *)
Theorem make_layer_always_fails in_c out_c num_blocks stride
  (x : Net.Shape) :
  2 <= num_blocks -> in_c <> out_c ->
  exists f, Net.make_layer in_c out_c num_blocks stride x = inl f.
Proof.
  intros Hn Hne.
  destruct (make_layer_second_block in_c out_c num_blocks stride x Hn Hne)
    as (f & Hf & _).
  now exists f.
Qed.

(** X20.  [Proposed.forward] fails on every input, whatever the numbers of
    channels and classes and the mode: if the input gets through
    [encode1] and the first pooling, [encode2] fails on a shape mismatch.
    And [forward] calls four attributes ([upconv4] .. [upconv1]) that
    [__init__] never assigns. *)
Theorem proposed_forward_always_fails num_channels num_classes training
  (x y : Net.Shape) :
  (exists f, Net.Proposed_forward num_channels num_classes training x = inl f
             /\ forall name, f <> Net.NoAttribute name) /\
  Net.call (Net.Proposed_init num_channels num_classes training) "upconv4" y
  = inl (Net.NoAttribute "upconv4") /\
  Net.call (Net.Proposed_init num_channels num_classes training) "upconv3" y
  = inl (Net.NoAttribute "upconv3") /\
  Net.call (Net.Proposed_init num_channels num_classes training) "upconv2" y
  = inl (Net.NoAttribute "upconv2") /\
  Net.call (Net.Proposed_init num_channels num_classes training) "upconv1" y
  = inl (Net.NoAttribute "upconv1").
Proof.
  split; [|repeat split].
  unfold Net.Proposed_forward. cbv zeta.
  change (Net.call (Net.Proposed_init num_channels num_classes training)
            "encode1" x)
    with (Net.double_conv num_channels 64 false training x).
  destruct (Net.double_conv num_channels 64 false training x) as [e|e1] eqn:E1.
  - cbn [Net.bind]. exists e. split; [reflexivity|].
    revert E1. unfold Net.double_conv. cbn [Net.Sequential].
    destruct (Net.Conv2d num_channels 64 3 1 1 1 x) as [e'|a] eqn:Ea.
    { cbn [Net.bind]. intros [= <-]. eapply conv_failure. exact Ea. }
    cbn [Net.bind Net.relu].
    destruct (Net.Conv2d 64 64 3 1 1 1 a) as [e'|b] eqn:Eb.
    { cbn [Net.bind]. intros [= <-]. eapply conv_failure. exact Eb. }
    cbn [Net.bind]. discriminate.
  - cbn [Net.bind].
    destruct (Net.max_pool2d_2 e1) as [e|p1] eqn:P1.
    + cbn [Net.bind]. exists e. split; [reflexivity|].
      revert P1. unfold Net.max_pool2d_2.
      destruct (Net.window_out (Net.height e1) 2 2 0 1);
        [|destruct (Net.window_out (Net.width e1) 2 2 0 1)];
        intros [= <-] name; discriminate.
    + cbn [Net.bind].
      change (Net.call (Net.Proposed_init num_channels num_classes training)
                "encode2" p1)
        with (Net.make_layer 64 128 3 1 p1).
      destruct (make_layer_second_block 64 128 3 1 p1) as (f & Hf & Hn);
        try lia.
      rewrite Hf. cbn [Net.bind]. exists f. split; [reflexivity|exact Hn].
Qed.

(** * The further properties at work on concrete inputs *)

Lemma early_exit_witness :
  run_outcome (main high_loss_X (resume_cfg false 5)) = None /\
  run_error (main high_loss_X (resume_cfg false 5)) = Some LoadFailed /\
  teardowns (run_events (main high_loss_X (resume_cfg false 5))) = [].
Proof.
  split; [reflexivity|].
  destruct (early_exit_does_nothing high_loss_X (resume_cfg false 5) eq_refl)
    as (_ & _ & _ & _ & _ & _ & Ht & _).
  split; [reflexivity|exact Ht].
Defined.

Lemma checkpoint_round_trip_witness :
  In saved_ck
    (saved_checkpoints
       (snd (run_epoch resumed_X (fresh_cfg 5) 0 0
               (built resumed_X (fresh_cfg 5))))) /\
  fine_tuning_batchnorm (resume_cfg false 5) = false /\
  optimizer
    (fst (restore resumed_X (resume_cfg false 5) saved_ck
            (built resumed_X (resume_cfg false 5))))
  = optimizer (fst (run_epoch resumed_X (fresh_cfg 5) 0 0
                      (built resumed_X (fresh_cfg 5)))) /\
  snd (restore resumed_X (resume_cfg false 5) saved_ck
         (built resumed_X (resume_cfg false 5))) = 0 + 1.
Proof.
  assert (Hin : In saved_ck
            (saved_checkpoints
               (snd (run_epoch resumed_X (fresh_cfg 5) 0 0
                       (built resumed_X (fresh_cfg 5))))))
    by (left; reflexivity).
  split; [exact Hin|]. split; [reflexivity|].
  destruct (checkpoint_round_trip resumed_X (fresh_cfg 5) (resume_cfg false 5)
              0 saved_ck (built resumed_X (fresh_cfg 5))
              (built resumed_X (resume_cfg false 5)) Hin eq_refl)
    as (_ & Ho & _ & _ & Hs & _).
  split; [exact Ho|exact Hs].
Defined.

Lemma resume_forgets_best_witness :
  In saved_ck
    (saved_checkpoints
       (snd (run_epoch resumed_X (fresh_cfg 5) 0 0
               (built resumed_X (fresh_cfg 5))))) /\
  (prev_miou
     (fst (restore resumed_X (resume_cfg false 5) saved_ck
             (built resumed_X (resume_cfg false 5))))
   <= prev_miou (fst (run_epoch resumed_X (fresh_cfg 5) 0 0
                        (built resumed_X (fresh_cfg 5)))))%Q.
Proof.
  assert (Hin : In saved_ck
            (saved_checkpoints
               (snd (run_epoch resumed_X (fresh_cfg 5) 0 0
                       (built resumed_X (fresh_cfg 5))))))
    by (left; reflexivity).
  split; [exact Hin|].
  destruct (resume_forgets_best resumed_X (fresh_cfg 5) (resume_cfg false 5)
              0 saved_ck (built resumed_X (fresh_cfg 5))
              (built resumed_X (resume_cfg false 5)) Hin)
    as (_ & _ & Hm & _).
  exact Hm.
Defined.

Lemma uninterrupted_run_witness :
  (forall j, j < 3 ->
     train_interupter high_loss_X
       (polls (built high_loss_X (fresh_cfg 3)) + j) = false) /\
  snd (epoch_loop high_loss_X (fresh_cfg 3) 0 (seq 0 3)
         (built high_loss_X (fresh_cfg 3))) = Completed /\
  checkpoint_epochs
    (snd (fst (epoch_loop high_loss_X (fresh_cfg 3) 0 (seq 0 3)
                 (built high_loss_X (fresh_cfg 3))))) = [0; 1; 2].
Proof.
  assert (Hgo : forall j, j < 3 ->
            train_interupter high_loss_X
              (polls (built high_loss_X (fresh_cfg 3)) + j) = false)
    by (intros j _; reflexivity).
  split; [exact Hgo|].
  pose proof (uninterrupted_run_completes high_loss_X (fresh_cfg 3) 0 0 3
                (built high_loss_X (fresh_cfg 3)) Hgo) as H.
  destruct (epoch_loop high_loss_X (fresh_cfg 3) 0 (seq 0 3)
              (built high_loss_X (fresh_cfg 3))) as [[st' ev] out].
  destruct H as (Hout & _ & _ & _ & _ & Hck & _).
  split; [exact Hout|exact Hck].
Defined.

Lemma resume_past_last_epoch_witness :
  resume_training (resume_cfg false 1)
  = Some "weights/UNet_checkpoint.pth"%string /\
  torch_load resumed_X "weights/UNet_checkpoint.pth"%string = Some saved_ck /\
  cfg_epoch (resume_cfg false 1) <= epoch saved_ck + 1 /\
  run_outcome (main resumed_X (resume_cfg false 1)) = Some Completed /\
  poll_log (run_events (main resumed_X (resume_cfg false 1))) = [].
Proof.
  assert (Hle : cfg_epoch (resume_cfg false 1) <= epoch saved_ck + 1)
    by (cbn; lia).
  split; [reflexivity|]. split; [reflexivity|]. split; [exact Hle|].
  split; [reflexivity|].
  destruct (resume_past_last_epoch resumed_X (resume_cfg false 1)
              "weights/UNet_checkpoint.pth"%string saved_ck Completed
              eq_refl eq_refl Hle eq_refl) as (_ & Hp & _).
  exact Hp.
Defined.

Lemma amp_disabled_witness :
  amp_enabled (fresh_cfg 2) = false /\
  found_inf overflow_X 0 0 0 (trainloader overflow_X 0 0) = true /\
  skipped_iters
    (snd (fst (epoch_loop overflow_X (fresh_cfg 2) 0 (seq 0 2)
                 (built overflow_X (fresh_cfg 2))))) = [].
Proof.
  split; [reflexivity|]. split; [reflexivity|].
  pose proof (amp_disabled_never_skips overflow_X (fresh_cfg 2) 0 (seq 0 2)
                (built overflow_X (fresh_cfg 2)) eq_refl) as H.
  destruct (epoch_loop overflow_X (fresh_cfg 2) 0 (seq 0 2)
              (built overflow_X (fresh_cfg 2))) as [[st' ev] out].
  destruct H as (Hs & _). exact Hs.
Defined.

Lemma demo_image_name_of_path_witness :
  (Demo.slash = Demo.slash \/ Demo.slash = Demo.backslash) /\
  Demo.occurs Demo.slash "bonn_000001.png" = false /\
  Demo.occurs Demo.backslash "bonn_000001.png" = false /\
  Demo.image_name
    (String.append (String (Ascii.ascii_of_nat 92) "data/val\bonn")
       (String Demo.slash "bonn_000001.png"))
  = Some "bonn_000001.png"%string.
Proof.
  split; [now left|]. split; [reflexivity|]. split; [reflexivity|].
  exact (proj1 (demo_image_name_of_path
                  (String (Ascii.ascii_of_nat 92) "data/val\bonn")
                  "bonn_000001.png" Demo.slash (or_introl eq_refl)
                  eq_refl eq_refl)).
Defined.

Lemma demo_image_name_idempotent_witness :
  Demo.image_name "leftImg8bit/val/bonn_000001.png"
  = Some "bonn_000001.png"%string /\
  Demo.image_name "bonn_000001.png" = Some "bonn_000001.png"%string.
Proof.
  split; [reflexivity|].
  exact (demo_image_name_idempotent "leftImg8bit/val/bonn_000001.png"
           "bonn_000001.png" eq_refl).
Defined.


Lemma aspp_single_image_witness :
  Net.batch (Net.MkShape 1 1024 16 32) = 1 /\
  exists f,
    Net.ASPP_forward 1024 512 true (Net.MkShape 1 1024 16 32) = inl f.
Proof.
  split; [reflexivity|].
  exact (aspp_single_image_training_fails 1024 512
           (Net.MkShape 1 1024 16 32) eq_refl).
Defined.


Lemma make_layer_witness :
  2 <= 3 /\ 64 <> 128 /\
  exists f, Net.make_layer 64 128 3 1 (Net.MkShape 1 64 128 256) = inl f.
Proof.
  assert (H1 : 2 <= 3) by lia. assert (H2 : 64 <> 128) by lia.
  split; [exact H1|]. split; [exact H2|].
  exact (make_layer_always_fails 64 128 3 1 (Net.MkShape 1 64 128 256) H1 H2).
Defined.
